(** * Tree Fetcher: a shallow embedding of [get_github_code_files]

    The source, [githubauth.py], holds one function.  It walks a repository
    breadth first through the hosting platform's "contents" endpoint and
    returns a dictionary from file path to text.  This file embeds that
    function and proves the properties its specification states about it.

    Conventions of the embedding.

    - A Python [str] is a [string]: the sequence of bytes of its UTF-8
      encoding.  Equality, concatenation and stripping of ['/'] agree with
      Python's on that representation; [bytes.decode('utf-8')] becomes a
      validity check, [str.encode('ascii')] a test that every byte is below
      128.
    - The network is a parameter, the [world]: a function from the
      arguments [session.get] is called with (the URL and the [headers]
      argument) to what the call does.  What the library puts on the wire
      for a call is not modelled.  The remote state does not change while
      the function runs.
    - The function prints; what it prints is kept as the list of messages
      [stdout], which survives exceptions as the real output does.
    - The [while] loop is run on fuel.  [None] means the fuel ran out, never
      that the function returned. *)

From stdpp Require Import base option list gmap strings.
From Stdlib Require Import ZArith NArith Ascii String Lia.

Local Open Scope string_scope.
Local Open Scope Z_scope.

(** ** Data as the function sees it *)

(** The values of the optional keys of a listing entry: what
    [response.json()] can put there.  The platform puts a string or [null];
    other JSON values are kept, since the function does not check.  A
    number is an integer here; a float is falsy when it is zero and is no
    string either. *)
#[warnings="-register-all"]
Inductive jval :=
| JNull
| JBool (b : bool)
| JNum (n : Z)
| JStr (s : string)
| JArr (l : list jval)
| JObj (d : list (string * jval)).

(** [bool(v)]: [None], [False], zero and the empty string, list and dict
    are falsy. *)
Definition truthy (v : jval) : bool :=
  match v with
  | JNull => false
  | JBool b => b
  | JNum n => negb (n =? 0)
  | JStr s => negb (String.eqb s "")
  | JArr l => match l with [] => false | _ => true end
  | JObj d => match d with [] => false | _ => true end
  end.

(** [v == lit] for a string literal [lit]: only a string can be equal. *)
Definition eq_str (v : jval) (lit : string) : bool :=
  match v with
  | JStr s => String.eqb s lit
  | _ => false
  end.

(** One [item] of a listing.  The endpoint gives every entry a ['type'] and a
    ['path'], both strings.  ['download_url'], ['content'] and ['encoding']
    may be missing ([None]), so that the source's membership tests and
    subscripts can be written as they are. *)
Record entry := Entry {
  e_type : string;
  e_path : string;
  e_download_url : option jval;
  e_content : option jval;
  e_encoding : option jval
}.

(** What [response.json()] gives for a listing request: one object when the
    path is a file, a list of objects when it is a directory. *)
Inductive listing :=
| Single (item : entry)
| Many (items : list entry).

(** ** The network *)

Record request := Request {
  url : string;
  headers : list (string * string)
}.

(** A response, seen through the three accessors the function uses.
    [json = None] stands for a body [response.json()] cannot parse. *)
Record response := Response {
  status_code : Z;
  text : string;
  json : option listing
}.

(** [session.get] returns a response or raises a [RequestException]
    (connection refused, DNS failure, invalid URL, ...). *)
Inductive get_result :=
| GetRaises
| GetReturns (r : response).

Definition world := request → get_result.

(** ** Exceptions *)

Inductive exn :=
| RequestException
| HTTPError (status : Z)
| JSONDecodeError
| KeyError (key : string)
| TypeError
| ValueError
| BinasciiError
| UnicodeDecodeError.

(** [isinstance(e, requests.exceptions.RequestException)].  [HTTPError] is a
    subclass; so is the exception [response.json()] raises (requests 2.27 and
    later), which also derives from [ValueError]. *)
Definition is_RequestException (e : exn) : bool :=
  match e with
  | RequestException | HTTPError _ | JSONDecodeError => true
  | _ => false
  end.

(** [isinstance(e, ValueError)].  [binascii.Error] and [UnicodeDecodeError]
    are subclasses of [ValueError]; [KeyError] and [TypeError] are not. *)
Definition is_ValueError (e : exn) : bool :=
  match e with
  | ValueError | BinasciiError | UnicodeDecodeError | JSONDecodeError => true
  | _ => false
  end.

(** ** Output *)

(** One constructor per [print] of the source, with the interpolated values
    the embedding has (the exception's own text is left out). *)
Inductive message :=
| WarnDownload (file_path : string) (download_url : jval)
| WarnDecode (file_path : string)
| WarnSkip (file_path : string)
| ErrNotFound (owner repo current_path : string) (status : Z)
| ErrAuth (status : Z)
| ErrFetch (current_path : string) (status : Z)
| ErrConnect
| ErrJSON (current_path : string).

(** ** State and the monad of the function body *)

Record state := State {
  code_files : gmap string string;
  queue : list string;
  stdout : list message
}.

Inductive result (A : Type) :=
| Val (a : A)
| Exc (e : exn).
Arguments Val {A} a.
Arguments Exc {A} e.

(** A statement: it runs on the state and ends with a value or with a raised
    exception; either way the state it leaves is kept. *)
Definition M (A : Type) : Type := state → result A * state.

#[export] Instance M_ret : MRet M := λ A a s, (Val a, s).

#[export] Instance M_bind : MBind M := λ A B f m s,
  match m s with
  | (Val a, s') => f a s'
  | (Exc e, s') => (Exc e, s')
  end.

Definition raise {A} (e : exn) : M A := λ s, (Exc e, s).

(** [try: body / except ...: handler].  [handler e = None] when no [except]
    clause matches [e], which then propagates. *)
Definition try_except {A} (body : M A) (handler : exn → option (M A)) : M A :=
  λ s,
    match body s with
    | (Val a, s') => (Val a, s')
    | (Exc e, s') =>
        match handler e with
        | Some h => h s'
        | None => (Exc e, s')
        end
    end.

(** [for x in xs: body x] *)
Fixpoint for_each {A} (xs : list A) (body : A → M unit) : M unit :=
  match xs with
  | [] => mret tt
  | x :: xs' => body x ;; for_each xs' body
  end.

Definition print (msg : message) : M unit := λ s,
  (Val tt, State (code_files s) (queue s) (stdout s ++ [msg])).

(** [code_files[file_path] = content] *)
Definition store (file_path content : string) : M unit := λ s,
  (Val tt, State (<[file_path := content]> (code_files s)) (queue s) (stdout s)).

(** [queue.append(path)] *)
Definition append (path : string) : M unit := λ s,
  (Val tt, State (code_files s) (queue s ++ [path]) (stdout s)).

(** [item[key]] for an optional key. *)
Definition subscript (field : option jval) (key : string) : M jval :=
  match field with
  | Some v => mret v
  | None => raise (KeyError key)
  end.

(** A library call that touches no state. *)
Definition lift {A} (r : result A) : M A := λ s, (r, s).

(** ** Library functions the body calls

    These are not part of the repository.  They are written out so that the
    function can be run on concrete listings. *)

Definition byte_of_ascii (c : ascii) : Z := Z.of_N (N_of_ascii c).
Definition ascii_of_byte (b : Z) : ascii := ascii_of_N (Z.to_N b).

Definition bytes_of_string (s : string) : list Z :=
  map byte_of_ascii (list_ascii_of_string s).
Definition string_of_bytes (bs : list Z) : string :=
  string_of_list_ascii (map ascii_of_byte bs).

(** [str.strip('/')], for one character to strip. *)
Fixpoint lstrip (c : ascii) (s : string) : string :=
  match s with
  | EmptyString => EmptyString
  | String a s' => if Ascii.eqb a c then lstrip c s' else s
  end.

Definition rstrip (c : ascii) (s : string) : string :=
  String.rev (lstrip c (String.rev s)).

Definition strip (c : ascii) (s : string) : string :=
  rstrip c (lstrip c s).

(** The standard base64 alphabet: the value of a character, [None] for a
    character outside the alphabet. *)
Definition b64_value (c : Z) : option Z :=
  if (65 <=? c) && (c <=? 90) then Some (c - 65)
  else if (97 <=? c) && (c <=? 122) then Some (c - 71)
  else if (48 <=? c) && (c <=? 57) then Some (c + 4)
  else if c =? 43 then Some 62
  else if c =? 47 then Some 63
  else None.

(** [binascii.a2b_base64] without strict mode, as CPython's loop: characters
    outside the alphabet are dropped, a pad sequence that completes a quad
    ends the decoding, and an unfinished quad at the end is a
    [binascii.Error].  [bin_data] is the output so far. *)
Fixpoint a2b_base64 (ascii_data : list Z) (quad_pos leftchar pads : Z)
    (bin_data : list Z) : result (list Z) :=
  match ascii_data with
  | [] => if quad_pos =? 0 then Val bin_data else Exc BinasciiError
  | this_ch :: rest =>
      if this_ch =? 61 then
        if 2 <=? quad_pos then
          if 4 <=? quad_pos + (pads + 1) then Val bin_data
          else a2b_base64 rest quad_pos leftchar (pads + 1) bin_data
        else a2b_base64 rest quad_pos leftchar pads bin_data
      else
        match b64_value this_ch with
        | None => a2b_base64 rest quad_pos leftchar pads bin_data
        | Some v =>
            if quad_pos =? 0 then
              a2b_base64 rest 1 v 0 bin_data
            else if quad_pos =? 1 then
              a2b_base64 rest 2 (Z.land v 15) 0
                (bin_data ++ [Z.land (Z.lor (Z.shiftl leftchar 2) (Z.shiftr v 4)) 255])
            else if quad_pos =? 2 then
              a2b_base64 rest 3 (Z.land v 3) 0
                (bin_data ++ [Z.land (Z.lor (Z.shiftl leftchar 4) (Z.shiftr v 2)) 255])
            else
              a2b_base64 rest 0 0 0
                (bin_data ++ [Z.land (Z.lor (Z.shiftl leftchar 6) v) 255])
        end
  end.

(** [base64.b64decode(s)] with the default [validate=False].  A [str] with
    a character outside ASCII is a plain [ValueError]; a value that is no
    string is a [TypeError]. *)
Definition b64decode (s : jval) : result (list Z) :=
  match s with
  | JStr s =>
      let data := bytes_of_string s in
      if forallb (λ b, b <? 128) data
      then a2b_base64 data 0 0 0 []
      else Exc ValueError
  | _ => Exc TypeError
  end.

(** Well-formed UTF-8: the ranges allowed for the bytes that follow a lead
    byte.  Overlong forms, surrogates and code points above U+10FFFF have no
    entry. *)
Definition utf8_lead (b : Z) : option (list (Z * Z)) :=
  if b <=? 127 then Some []
  else if (194 <=? b) && (b <=? 223) then Some [(128, 191)]
  else if b =? 224 then Some [(160, 191); (128, 191)]
  else if (225 <=? b) && (b <=? 236) then Some [(128, 191); (128, 191)]
  else if b =? 237 then Some [(128, 159); (128, 191)]
  else if (238 <=? b) && (b <=? 239) then Some [(128, 191); (128, 191)]
  else if b =? 240 then Some [(144, 191); (128, 191); (128, 191)]
  else if (241 <=? b) && (b <=? 243) then Some [(128, 191); (128, 191); (128, 191)]
  else if b =? 244 then Some [(128, 143); (128, 191); (128, 191)]
  else None.

Fixpoint utf8_check (pending : list (Z * Z)) (bs : list Z) : bool :=
  match bs with
  | [] => match pending with [] => true | _ => false end
  | b :: bs' =>
      match pending with
      | [] =>
          match utf8_lead b with
          | Some p => utf8_check p bs'
          | None => false
          end
      | (lo, hi) :: p => (lo <=? b) && (b <=? hi) && utf8_check p bs'
      end
  end.

(** [bs.decode('utf-8')] *)
Definition decode_utf8 (bs : list Z) : result string :=
  if utf8_check [] bs then Val (string_of_bytes bs) else Exc UnicodeDecodeError.

(** [response.raise_for_status()]: an [HTTPError] for 4xx and 5xx. *)
Definition raise_for_status (r : response) : M unit :=
  if (400 <=? status_code r) && (status_code r <? 600)
  then raise (HTTPError (status_code r))
  else mret tt.

(** [response.json()] *)
Definition response_json (r : response) : M listing :=
  match json r with
  | Some items => mret items
  | None => raise JSONDecodeError
  end.

(** ** The function *)

Inductive outcome :=
| Returned (d : gmap string string)
| Raised (e : exn).

Section TreeFetcher.
Variable w : world.
Variables owner repo branch pat : string.

Definition base_url : string := "https://api.github.com".

Definition listing_headers : list (string * string) :=
  [("Authorization", "token " ++ pat);
   ("Accept", "application/vnd.github.v3+json")].

Definition download_headers : list (string * string) :=
  [("Authorization", "token " ++ pat)].

Definition contents_url (current_path : string) : string :=
  base_url ++ "/repos/" ++ owner ++ "/" ++ repo ++ "/contents/"
    ++ current_path ++ "?ref=" ++ branch.

(** [session.get(u, headers=h, verify=False)].  A [u] that is no string
    has no scheme: requests raises before sending anything. *)
Definition session_get (u : jval) (h : list (string * string)) : M response :=
  match u with
  | JStr u => λ s,
      match w (Request u h) with
      | GetRaises => (Exc RequestException, s)
      | GetReturns r => (Val r, s)
      end
  | _ => raise RequestException
  end.

(** Lines 59-66: the [try] under the [download_url] test. *)
Definition download_file (file_path : string) (download_url : jval) : M unit :=
  try_except
    (file_content_response ← session_get download_url download_headers;
     raise_for_status file_content_response;;
     store file_path (text file_content_response))
    (λ e,
      if is_RequestException e
      then Some (print (WarnDownload file_path download_url))
      else None).

(** Lines 69-73: the [try] under the [content] test. *)
Definition decode_inline (file_path : string) (content : jval) : M unit :=
  try_except
    (raw ← lift (b64decode content);
     decoded_content ← lift (decode_utf8 raw);
     store file_path decoded_content)
    (λ e,
      match e with
      | BinasciiError | UnicodeDecodeError => Some (print (WarnDecode file_path))
      | _ => None
      end).

(** Lines 68-75: [elif 'content' in item and item['content'] and
    item['encoding'] == 'base64': ... else: ...].  The subscript
    [item['encoding']] is evaluated only when the content is there and
    truthy, and raises [KeyError] when the key is missing. *)
Definition inline_or_skip (item : entry) : M unit :=
  let file_path := e_path item in
  match e_content item with
  | Some content =>
      if truthy content then
        encoding ← subscript (e_encoding item) "encoding";
        if eq_str encoding "base64"
        then decode_inline file_path content
        else print (WarnSkip file_path)
      else print (WarnSkip file_path)
  | None => print (WarnSkip file_path)
  end.

(** Lines 55-79: the body of [for item in items]. *)
Definition process_item (item : entry) : M unit :=
  if String.eqb (e_type item) "file" then
    let file_path := e_path item in
    match e_download_url item with
    | Some download_url =>
        if truthy download_url
        then download_file file_path download_url
        else inline_or_skip item
    | None => inline_or_skip item
    end
  else if String.eqb (e_type item) "dir" then
    append (e_path item)
  else mret tt.

(** Lines 51-52: a single object is wrapped in a list. *)
Definition normalize (items : listing) : list entry :=
  match items with
  | Single item => [item]
  | Many items => items
  end.

(** Lines 81-94: the [except] clauses of the outer [try], in order.  Each
    prints and returns [{}]; an exception none of them names propagates. *)
Definition on_error (current_path : string) (e : exn)
    : option (M (option (gmap string string))) :=
  match e with
  | HTTPError status =>
      Some ((if (status =? 404)%Z
             then print (ErrNotFound owner repo current_path status)
             else if ((status =? 401) || (status =? 403))%Z
             then print (ErrAuth status)
             else print (ErrFetch current_path status));;
            mret (Some ∅))
  | _ =>
      if is_RequestException e
      then Some (print ErrConnect;; mret (Some ∅))
      else if is_ValueError e
      then Some (print (ErrJSON current_path);; mret (Some ∅))
      else None
  end.

(** Lines 41-94: one pass of the [while] body on the path just popped.
    [Some d] is a [return d] from inside the loop; [None] falls through
    to the next pass. *)
Definition iteration (current_path : string) : M (option (gmap string string)) :=
  try_except
    (response ← session_get (JStr (contents_url current_path)) listing_headers;
     raise_for_status response;;
     items ← response_json response;
     for_each (normalize items) process_item;;
     mret None)
    (on_error current_path).

(** Lines 36-96: [while queue: ...; return code_files]. *)
Fixpoint while_queue (fuel : nat) (s : state) {struct fuel}
    : option (outcome * list message) :=
  match queue s with
  | [] => Some (Returned (code_files s), stdout s)
  | current_path :: rest =>
      match fuel with
      | O => None
      | S fuel' =>
          match iteration current_path (State (code_files s) rest (stdout s)) with
          | (Val None, s') => while_queue fuel' s'
          | (Val (Some d), s') => Some (Returned d, stdout s')
          | (Exc e, s') => Some (Raised e, stdout s')
          end
      end
  end.

(** Lines 29-32: the state before the loop.  [path] is stripped of leading
    and trailing ['/'] and seeds the queue. *)
Definition initial (path : string) : state :=
  State ∅ [strip "/" path] [].

(** The function. *)
Definition get_github_code_files (fuel : nat) (path : string)
    : option (outcome * list message) :=
  while_queue fuel (initial path).

(** The states at the head of the [while] loop: [reaches s0 s] when the
    loop, started in [s0], is back at its test in state [s] after some
    number of passes that neither returned nor raised. *)
Inductive reaches (s0 : state) : state → Prop :=
| reaches_start : reaches s0 s0
| reaches_pass s current_path rest s' :
    reaches s0 s →
    queue s = current_path :: rest →
    iteration current_path (State (code_files s) rest (stdout s)) = (Val None, s') →
    reaches s0 s'.

End TreeFetcher.

Local Close Scope Z_scope.
Local Open Scope nat_scope.

(** The entries of the body of a listing, by the contract of the endpoint:
    a list of objects stands for the entries of a directory, a single
    object for the one entry of a path that is a file.  This is the
    reading of the contract, not the function's [normalize]. *)
Definition entries_of (body : listing) : list entry :=
  match body with
  | Many entries => entries
  | Single entry => [entry]
  end.

(** ** Describing a listing and a retrieval

    The definitions below are not code of the function: they say, in terms of
    the [world] alone, what a request yields.  The theorems compare the
    function with them. *)

Section Describe.
Variable w : world.
Variables owner repo branch pat : string.

(** The listing request for the path [p], by the contract of the
    endpoint: the URL of the contents of [p] at [branch], with the token
    and the JSON media type.  Written out here, not taken from the
    function. *)
Definition listing_request (p : string) : request :=
  Request
    ("https://api.github.com/repos/" ++ owner ++ "/" ++ repo ++ "/contents/" ++ p
       ++ "?ref=" ++ branch)
    [("Authorization", "token " ++ pat);
     ("Accept", "application/vnd.github.v3+json")].

(** The request for the raw content at [u], with the token. *)
Definition download_request (u : string) : request :=
  Request u [("Authorization", "token " ++ pat)].

(** The response has a status [raise_for_status] lets through. *)
Definition status_ok (r : response) : Prop :=
  ¬ (400 ≤ status_code r < 600)%Z.

(** The entries a listing request for [p] yields when it succeeds. *)
Definition list_dir (p : string) : option (list entry) :=
  match w (listing_request p) with
  | GetRaises => None
  | GetReturns r =>
      if ((400 <=? status_code r) && (status_code r <? 600))%Z then None
      else entries_of <$> json r
  end.

(** The listing request for [p] fails: [session.get] raises, the status
    is one [raise_for_status] rejects, or the body is not JSON. *)
Inductive listing_fails (p : string) : Prop :=
| fails_transport :
    w (Request (contents_url owner repo branch p) (listing_headers pat)) = GetRaises →
    listing_fails p
| fails_status r :
    w (Request (contents_url owner repo branch p) (listing_headers pat)) = GetReturns r →
    (400 ≤ status_code r < 600)%Z →
    listing_fails p
| fails_body r :
    w (Request (contents_url owner repo branch p) (listing_headers pat)) = GetReturns r →
    json r = None →
    listing_fails p.

(** The text a request to the download URL [u] yields when it succeeds. *)
Definition download_text (u : jval) : option string :=
  match u with
  | JStr u =>
      match w (download_request u) with
      | GetRaises => None
      | GetReturns r =>
          if ((400 <=? status_code r) && (status_code r <? 600))%Z then None
          else Some (text r)
      end
  | _ => None
  end.

(** The text inline content decodes to, when it does. *)
Definition inline_text (content : jval) : option string :=
  match b64decode content with
  | Val raw =>
      match decode_utf8 raw with
      | Val t => Some t
      | Exc _ => None
      end
  | Exc _ => None
  end.

(** The entry carries a non-empty download URL. *)
Definition has_download_url (item : entry) : bool :=
  match e_download_url item with
  | Some u => truthy u
  | None => false
  end.

(** The entry carries non-empty inline content tagged [base64]. *)
Definition has_inline_base64 (item : entry) : bool :=
  match e_content item, e_encoding item with
  | Some c, Some e => truthy c && eq_str e "base64"
  | _, _ => false
  end.

(** The content of a file entry by the two-tier strategy, [None] when
    neither tier gives one. *)
Definition retrieve (item : entry) : option string :=
  match e_download_url item with
  | Some u =>
      if truthy u then download_text u
      else if has_inline_base64 item then e_content item ≫= inline_text else None
  | None =>
      if has_inline_base64 item then e_content item ≫= inline_text else None
  end.

(** [q] is listed from [p]: it is [p], or it is listed from a directory
    entry of the listing of [p]. *)
Inductive listed : string → string → Prop :=
| listed_here p : listed p p
| listed_down p items it q :
    list_dir p = Some items →
    it ∈ items →
    e_type it = "dir" →
    listed (e_path it) q →
    listed p q.

(** An entry of type [ty] and path [f] is reported by the listing of a
    path listed from [start]. *)
Definition reported (ty : string) (start f : string) : Prop :=
  ∃ p items it,
    listed start p ∧ list_dir p = Some items ∧ it ∈ items ∧
    e_type it = ty ∧ e_path it = f.

(** The invariant of the loop: the queue holds the starting path and paths
    reported as directories, the mapping holds paths reported as files. *)
Definition provenance (start : string) (s : state) : Prop :=
  (∀ q, q ∈ queue s → q = start ∨ reported "dir" start q) ∧
  (∀ k, k ∈ dom (code_files s) → reported "file" start k).

(** A repository tree below [p] that can be fetched without error: the
    listing of [p] succeeds, every file entry in it can be retrieved, and
    the same holds below every directory entry.  Being inductive, the tree
    is finite and has no cycle. *)
Inductive intact : string → Prop :=
| intact_dir p items :
    list_dir p = Some items →
    (∀ it, it ∈ items → e_type it = "file" → is_Some (retrieve it)) →
    (∀ it, it ∈ items → e_type it = "dir" → intact (e_path it)) →
    intact p.

(** The paths of the directory entries of a listing, in order. *)
Definition subdirs (items : list entry) : list string :=
  e_path <$> filter (λ it, e_type it = "dir") items.

(** What the listing adds to [code_files] when no file fails. *)
Definition collect (items : list entry) (cf : gmap string string)
    : gmap string string :=
  foldl (λ cf it,
           if String.eqb (e_type it) "file"
           then match retrieve it with
                | Some t => <[e_path it := t]> cf
                | None => cf
                end
           else cf) cf items.

(** The tree below [p] is intact and at most [n] levels deep. *)
Fixpoint bounded (n : nat) (p : string) : Prop :=
  match n with
  | O => False
  | S n' =>
      ∃ items,
        list_dir p = Some items ∧
        (∀ it, it ∈ items → e_type it = "file" → is_Some (retrieve it)) ∧
        (∀ it, it ∈ items → e_type it = "dir" → bounded n' (e_path it))
  end.

(** The number of listing requests the tree below [p] takes, counted down
    to depth [n]. *)
Fixpoint weight (n : nat) (p : string) : nat :=
  match n with
  | O => O
  | S n' =>
      match list_dir p with
      | Some items => S (sum_list_with (weight n') (subdirs items))
      | None => O
      end
  end.

End Describe.

(** ** Example repositories

    Small worlds on which the function is run.  A repository is private:
    a call without the token in its [headers] argument is answered 401. *)

Fixpoint route (routes : list (string * response)) (u : string) : get_result :=
  match routes with
  | [] => GetRaises
  | (u', r) :: routes' => if String.eqb u u' then GetReturns r else route routes' u
  end.

Definition private_repo (token : string) (routes : list (string * response))
    : world :=
  λ req,
    if bool_decide (("Authorization", "token " ++ token) ∈ headers req)
    then route routes (url req)
    else GetReturns (Response 401 "" None).

(** [ok l] is a 200 answer with the listing [l]; [raw t] a 200 answer with
    the text [t]. *)
Definition ok (l : listing) : response := Response 200 "" (Some l).
Definition raw (t : string) : response := Response 200 t None.

Definition api (p : string) : string :=
  contents_url "octocat" "benz" "main" p.

Definition a_txt : entry :=
  Entry "file" "a.txt" None (Some (JStr "aGVsbG8=")) (Some (JStr "base64")).
Definition sub_dir : entry :=
  Entry "dir" "sub" (Some JNull) None None.
Definition b_txt : entry :=
  Entry "file" "sub/b.txt" (Some (JStr "https://raw.example/sub/b.txt")) None None.

(** Root: [a.txt] (inline base64 of "hello") and [sub/]; [sub/]: [b.txt],
    served as "world" from its download URL. *)
Definition small_tree : world :=
  private_repo "tok"
    [(api "", ok (Many [a_txt; sub_dir]));
     (api "sub", ok (Many [b_txt]));
     ("https://raw.example/sub/b.txt", raw "world")].

(** The same tree with the listing of [sub/] answered 404. *)
Definition broken_subtree : world :=
  private_repo "tok"
    [(api "", ok (Many [a_txt; sub_dir]));
     (api "sub", Response 404 "" None)].

(** The path [a.txt] is a file: the listing is one object. *)
Definition single_file : world :=
  private_repo "tok" [(api "a.txt", ok (Single a_txt))].

(** The root listing arrives with status 300 and a body that parses. *)
Definition multiple_choices : world :=
  private_repo "tok" [(api "", Response 300 "" (Some (Many [a_txt])))].

(** A file entry with inline content and no ['encoding'] key, between two
    files that can be retrieved. *)
Definition untagged : entry :=
  Entry "file" "u.bin" None (Some (JStr "a")) None.
Definition c_txt : entry :=
  Entry "file" "c.txt" None (Some (JStr "d29ybGQ=")) (Some (JStr "base64")).
Definition untagged_tree : world :=
  private_repo "tok" [(api "", ok (Many [a_txt; untagged; c_txt]))].

(** A file entry tagged [base64] whose content holds a character outside
    ASCII (U+00E9, bytes C3 A9), between the same two files. *)
Definition accented : entry :=
  Entry "file" "e.txt" None
    (Some (JStr (String (ascii_of_nat 195) (String (ascii_of_nat 169) ""))))
    (Some (JStr "base64")).
Definition accented_tree : world :=
  private_repo "tok" [(api "", ok (Many [a_txt; accented; c_txt]))].

(** A file entry with a download URL that answers 404 and with valid inline
    content. *)
Definition both_sources : entry :=
  Entry "file" "d.txt" (Some (JStr "https://raw.example/d.txt"))
    (Some (JStr "aGVsbG8=")) (Some (JStr "base64")).
Definition dead_link_tree : world :=
  private_repo "tok"
    [(api "", ok (Many [both_sources; c_txt]));
     ("https://raw.example/d.txt", Response 404 "Not Found" None)].

(** A line printed by an [except] clause of the outer [try], as opposed to
    a warning about one file. *)
Definition is_diagnostic (msg : message) : bool :=
  match msg with
  | WarnDownload _ _ | WarnDecode _ | WarnSkip _ => false
  | ErrNotFound _ _ _ _ | ErrAuth _ | ErrFetch _ _ | ErrConnect | ErrJSON _ => true
  end.

(** A file entry whose content, tagged [base64], is a number. *)
Definition numeric : entry :=
  Entry "file" "n.bin" None (Some (JNum 5)) (Some (JStr "base64")).
Definition numeric_tree : world :=
  private_repo "tok" [(api "", ok (Many [a_txt; numeric; c_txt]))].

(** A directory whose listing holds the directory itself. *)
Definition loop_dir : entry :=
  Entry "dir" "loop" (Some JNull) None None.
Definition cyclic : world :=
  private_repo "tok" [(api "loop", ok (Many [a_txt; loop_dir]))].

(** The small tree in a world where a call of [session.get] without the
    token in its [headers] argument is answered 403, not 401. *)
Definition small_tree_403 : world :=
  λ req,
    if bool_decide (("Authorization", "token tok") ∈ headers req)
    then small_tree req
    else GetReturns (Response 403 "" None).

(** A listing without the entries that are neither files nor directories,
    and a world with every listing so reduced. *)
Definition files_and_dirs (l : listing) : listing :=
  Many (filter (λ it, e_type it = "file" ∨ e_type it = "dir") (entries_of l)).

Definition without_others (w : world) : world :=
  λ req,
    match w req with
    | GetRaises => GetRaises
    | GetReturns r =>
        GetReturns (Response (status_code r) (text r) (files_and_dirs <$> json r))
    end.

(** Two entries with the same path in one listing. *)
Definition a_txt_again : entry :=
  Entry "file" "a.txt" None (Some (JStr "d29ybGQ=")) (Some (JStr "base64")).

(** ** The statements of the body, one by one *)

Ltac unfold_monad :=
  unfold mbind, M_bind, mret, M_ret, raise, try_except, lift, print, store,
    append, subscript in *.

Lemma state_eta (s : state) : State (code_files s) (queue s) (stdout s) = s.
Proof. by destruct s. Qed.

Section Body.
Variable w : world.
Variables owner repo branch pat : string.

Local Abbreviation download_text' := (download_text w pat).
Local Abbreviation retrieve' := (retrieve w pat).
Local Abbreviation list_dir' := (list_dir w owner repo branch pat).
Local Abbreviation process_item' := (process_item w pat).
Local Abbreviation iteration' := (iteration w owner repo branch pat).
Local Abbreviation while_queue' := (while_queue w owner repo branch pat).
Local Abbreviation get_github_code_files' :=
  (get_github_code_files w owner repo branch pat).
Local Abbreviation reaches' := (reaches w owner repo branch pat).
Local Abbreviation reported' := (reported w owner repo branch pat).
Local Abbreviation listed' := (listed w owner repo branch pat).
Local Abbreviation intact' := (intact w owner repo branch pat).
Local Abbreviation bounded' := (bounded w owner repo branch pat).
Local Abbreviation weight' := (weight w owner repo branch pat).
Local Abbreviation provenance' := (provenance w owner repo branch pat).
Local Abbreviation listing_fails' := (listing_fails w owner repo branch pat).

(** The requests of the contract are the ones the function makes, and the
    entries of a body are what the function iterates over. *)
Lemma listing_request_eq (p : string) :
  listing_request owner repo branch pat p =
  Request (contents_url owner repo branch p) (listing_headers pat).
Proof. reflexivity. Qed.

Lemma download_request_eq (u : string) :
  download_request pat u = Request u (download_headers pat).
Proof. reflexivity. Qed.

Lemma normalize_entries (l : listing) : normalize l = entries_of l.
Proof. by destruct l. Qed.

(** The [try] around the download either stores the text or prints one
    warning; it never raises. *)
Lemma download_file_eq (file_path : string) (u : jval) (s : state) :
  download_file w pat file_path u s =
    match download_text' u with
    | Some t =>
        (Val tt, State (<[file_path := t]> (code_files s)) (queue s) (stdout s))
    | None =>
        (Val tt, State (code_files s) (queue s)
                   (stdout s ++ [WarnDownload file_path u]))
    end.
Proof.
  unfold download_file, download_text, session_get, raise_for_status.
  destruct u as [| | |u| |]; unfold_monad; simpl; try done.
  rewrite download_request_eq.
  destruct (w _) as [|r]; simpl; [done|].
  by destruct ((400 <=? status_code r) && (status_code r <? 600))%Z.
Qed.

Lemma decode_inline_ok (file_path : string) (content : jval) (t : string) (s : state) :
  inline_text content = Some t →
  decode_inline file_path content s =
    (Val tt, State (<[file_path := t]> (code_files s)) (queue s) (stdout s)).
Proof.
  unfold inline_text, decode_inline. unfold_monad.
  destruct (b64decode content) as [raw|]; [|done].
  destruct (decode_utf8 raw); [|done].
  by intros [= ->].
Qed.

Lemma process_item_file (item : entry) (t : string) (s : state) :
  e_type item = "file" →
  retrieve' item = Some t →
  process_item' item s =
    (Val tt, State (<[e_path item := t]> (code_files s)) (queue s) (stdout s)).
Proof.
  intros Hty Hret. unfold process_item. rewrite Hty. simpl.
  assert (Hinline : (if has_inline_base64 item
                     then e_content item ≫= inline_text else None) = Some t →
                    inline_or_skip item s =
                      (Val tt, State (<[e_path item := t]> (code_files s))
                                 (queue s) (stdout s))).
  { unfold has_inline_base64, inline_or_skip.
    destruct (e_content item) as [c|]; [|done].
    destruct (e_encoding item) as [e|]; [|done]. simpl.
    destruct (truthy c); [|done]. unfold_monad. simpl.
    destruct (eq_str e "base64"); [|done].
    apply decode_inline_ok. }
  unfold retrieve in Hret.
  destruct (e_download_url item) as [u|]; [|by apply Hinline].
  destruct (truthy u); [|by apply Hinline].
  by rewrite download_file_eq, Hret.
Qed.

Lemma process_item_dir (item : entry) (s : state) :
  e_type item = "dir" →
  process_item' item s =
    (Val tt, State (code_files s) (queue s ++ [e_path item]) (stdout s)).
Proof. intros Hty. unfold process_item. by rewrite Hty. Qed.

Lemma process_item_other (item : entry) (s : state) :
  e_type item ≠ "file" →
  e_type item ≠ "dir" →
  process_item' item s = (Val tt, s).
Proof.
  intros Hf Hd. unfold process_item.
  apply String.eqb_neq in Hf, Hd. by rewrite Hf, Hd.
Qed.

(** A listing in which every file can be retrieved: the [for] loop adds
    the files to [code_files], appends the directories to the queue in
    order, prints nothing and raises nothing. *)
Lemma for_each_retrievable (items : list entry) (s : state) :
  (∀ it, it ∈ items → e_type it = "file" → is_Some (retrieve' it)) →
  for_each items process_item' s =
    (Val tt, State (collect w pat items (code_files s))
               (queue s ++ subdirs items) (stdout s)).
Proof.
  revert s. induction items as [|it items IH]; intros s Hall.
  - simpl. unfold subdirs. simpl. by rewrite app_nil_r, state_eta.
  - assert (Htail : ∀ it', it' ∈ items → e_type it' = "file" → is_Some (retrieve' it'))
      by (intros; apply Hall; [by right|done]).
    simpl. unfold mbind, M_bind. unfold subdirs, collect. simpl.
    destruct (decide (e_type it = "file")) as [Hf|Hf].
    + destruct (Hall it) as [t Ht]; [by left|done|].
      rewrite (process_item_file _ t), IH by done. simpl.
      rewrite Hf, Ht. simpl.
      rewrite filter_cons_False by (rewrite Hf; done). done.
    + assert (String.eqb (e_type it) "file" = false) as -> by by apply String.eqb_neq.
      destruct (decide (e_type it = "dir")) as [Hd|Hd].
      * rewrite process_item_dir, IH by done. simpl.
        rewrite filter_cons_True by done. simpl.
        by rewrite <- app_assoc.
      * rewrite process_item_other, IH by done.
        by rewrite filter_cons_False by done.
Qed.

Lemma elem_of_dom_collect (items : list entry) (cf : gmap string string) (k : string) :
  (∀ it, it ∈ items → e_type it = "file" → is_Some (retrieve' it)) →
  k ∈ dom (collect w pat items cf) ↔
    k ∈ dom cf ∨ ∃ it, it ∈ items ∧ e_type it = "file" ∧ e_path it = k.
Proof.
  revert cf. induction items as [|it items IH]; intros cf Hall; simpl.
  - split; [by left|]. intros [?|(it & Hin & _)]; [done|]. by apply elem_of_nil in Hin.
  - rewrite IH by (intros; apply Hall; [by right|done]). clear IH.
    destruct (String.eqb_spec (e_type it) "file") as [Hf|Hf].
    + destruct (Hall it) as [t Ht]; [by left|done|]. rewrite Ht.
      rewrite dom_insert, elem_of_union, elem_of_singleton.
      split.
      * intros [[->|?]|(it' & ? & ? & ?)]; [right; exists it|by left|right; exists it'];
          (split; [by constructor|done]).
      * intros [?|(it' & Hin & Hf' & <-)]; [by left; right|].
        apply elem_of_cons in Hin as [->|Hin]; [by left; left|].
        right. by exists it'.
    + split.
      * intros [?|(it' & ? & ? & ?)]; [by left|right; exists it'].
        split; [by constructor|done].
      * intros [?|(it' & Hin & Hf' & <-)]; [by left|].
        apply elem_of_cons in Hin as [->|Hin]; [done|].
        right. by exists it'.
Qed.

(** *** One pass of the [while] body *)

Lemma list_dir_ok (p : string) (r : response) (l : listing) :
  w (Request (contents_url owner repo branch p) (listing_headers pat)) = GetReturns r →
  status_ok r →
  json r = Some l →
  list_dir' p = Some (entries_of l).
Proof.
  unfold list_dir, status_ok. rewrite listing_request_eq. intros -> Hst ->.
  destruct (400 <=? status_code r)%Z eqn:H1, (status_code r <? 600)%Z eqn:H2;
    simpl; try done.
  exfalso. apply Hst. lia.
Qed.

Lemma listing_fails_None (p : string) :
  listing_fails w owner repo branch pat p ↔ list_dir' p = None.
Proof.
  unfold list_dir. rewrite listing_request_eq. split.
  - intros [->|r -> Hst|r -> Hj]; [done| |].
    + destruct (400 <=? status_code r)%Z eqn:H1, (status_code r <? 600)%Z eqn:H2;
        simpl; try done; lia.
    + rewrite Hj. by destruct ((400 <=? status_code r) && (status_code r <? 600))%Z.
  - destruct (w _) as [|r] eqn:Hw; [intros _; by apply fails_transport|].
    destruct (400 <=? status_code r)%Z eqn:H1, (status_code r <? 600)%Z eqn:H2;
      simpl; try (intros _; apply (fails_status _ _ _ _ _ _ r); [done|lia]);
      destruct (json r) eqn:Hj; try done; intros _;
      by apply (fails_body _ _ _ _ _ _ r).
Qed.

(** With a listing in hand, the pass is the [for] loop, followed by the
    [except] clauses when the loop raises. *)
Lemma iteration_listed (p : string) (items : list entry) (s : state) :
  list_dir' p = Some items →
  iteration' p s =
    match for_each items process_item' s with
    | (Val _, s') => (Val None, s')
    | (Exc e, s') =>
        match on_error owner repo p e with
        | Some h => h s'
        | None => (Exc e, s')
        end
    end.
Proof.
  unfold list_dir, iteration, session_get, raise_for_status, response_json.
  rewrite listing_request_eq. intros Hl. unfold_monad.
  destruct (w _) as [|r]; [done|].
  destruct ((400 <=? status_code r) && (status_code r <? 600))%Z; [done|].
  destruct (json r) as [l|]; [|done].
  injection Hl as <-. rewrite normalize_entries.
  by destruct (for_each _ _ s) as [[[]|e] s'].
Qed.

Lemma iteration_success (p : string) (items : list entry) (s s' : state) :
  list_dir' p = Some items →
  for_each items process_item' s = (Val tt, s') →
  iteration' p s = (Val None, s').
Proof. intros Hl Hfor. by rewrite (iteration_listed _ items), Hfor. Qed.

Lemma iteration_failure (p : string) (s : state) :
  list_dir' p = None →
  ∃ msg, iteration' p s =
           (Val (Some ∅), State (code_files s) (queue s) (stdout s ++ [msg])).
Proof.
  unfold list_dir, iteration, on_error, session_get, raise_for_status, response_json.
  rewrite listing_request_eq. intros Hl. unfold_monad.
  destruct (w _) as [|r]; simpl; [by eexists|].
  destruct ((400 <=? status_code r) && (status_code r <? 600))%Z; simpl.
  - destruct (status_code r =? 404)%Z; [by eexists|].
    destruct ((status_code r =? 401) || (status_code r =? 403))%Z; by eexists.
  - destruct (json r); [done|]. by eexists.
Qed.

(** An [except] clause prints one line and returns the empty mapping. *)
Lemma on_error_handles (p : string) (e : exn) (h : M (option (gmap string string)))
    (s : state) :
  on_error owner repo p e = Some h →
  ∃ msg, h s = (Val (Some ∅), State (code_files s) (queue s) (stdout s ++ [msg])).
Proof.
  unfold on_error. unfold_monad. intros Hh.
  destruct e; simpl in Hh; simplify_eq; try by eexists.
  destruct (status =? 404)%Z; [by eexists|].
  destruct ((status =? 401) || (status =? 403))%Z; by eexists.
Qed.

(** *** The loop *)

Lemma while_queue_nil (fuel : nat) (s : state) :
  queue s = [] →
  while_queue' fuel s = Some (Returned (code_files s), stdout s).
Proof. intros Hq. destruct fuel; simpl; by rewrite Hq. Qed.

Lemma while_queue_cons (fuel : nat) (s : state) (p : string) (rest : list string) :
  queue s = p :: rest →
  while_queue' (S fuel) s =
    match iteration' p (State (code_files s) rest (stdout s)) with
    | (Val None, s') => while_queue' fuel s'
    | (Val (Some d), s') => Some (Returned d, stdout s')
    | (Exc e, s') => Some (Raised e, stdout s')
    end.
Proof. intros Hq. simpl. by rewrite Hq. Qed.

Lemma while_queue_mono (fuel fuel' : nat) (s : state) (r : outcome * list message) :
  while_queue' fuel s = Some r → fuel ≤ fuel' → while_queue' fuel' s = Some r.
Proof.
  revert fuel' s. induction fuel as [|fuel IH]; intros fuel' s Hrun Hle.
  - destruct fuel'; simpl in *; by destruct (queue s).
  - destruct fuel' as [|fuel']; [lia|]. simpl in *.
    destruct (queue s) as [|p rest]; [done|].
    destruct (iteration' p _) as [[[d|]|e] s']; [done| |done].
    apply IH; [done|lia].
Qed.

Lemma elem_of_subdirs (items : list entry) (q : string) :
  q ∈ subdirs items ↔ ∃ it, it ∈ items ∧ e_type it = "dir" ∧ e_path it = q.
Proof.
  unfold subdirs. rewrite list_elem_of_fmap. split.
  - intros (it & -> & Hin). apply list_elem_of_filter in Hin as [? ?]. by exists it.
  - intros (it & Hin & Hd & <-). exists it. split; [done|].
    by apply list_elem_of_filter.
Qed.

Lemma listed_trans (a b c : string) :
  listed w owner repo branch pat a b →
  listed w owner repo branch pat b c →
  listed w owner repo branch pat a c.
Proof.
  induction 1 as [|p items it q Hl Hin Hd _ IH]; [done|].
  intros Hbc. eapply listed_down; eauto.
Qed.

(** The entries reported below [p] are those of its own listing and those
    reported below its directory entries. *)
Lemma reported_unfold (ty p k : string) (items : list entry) :
  list_dir' p = Some items →
  reported w owner repo branch pat ty p k ↔
    (∃ it, it ∈ items ∧ e_type it = ty ∧ e_path it = k) ∨
    (∃ q, q ∈ subdirs items ∧ reported w owner repo branch pat ty q k).
Proof.
  intros Hl. split.
  - intros (p' & items' & it & Hlisted & Hl' & Hin & Hty & Hk).
    inversion Hlisted as [|? items0 it0 ? Hl0 Hin0 Hd0 Hrest]; subst.
    + left. exists it. by simplify_eq.
    + right. exists (e_path it0). split.
      * apply elem_of_subdirs. exists it0. by simplify_eq.
      * by exists p', items', it.
  - intros [(it & Hin & Hty & Hk)|(q & Hq & p' & items' & it & Hlisted & ?)].
    + exists p, items, it. split; [constructor|done].
    + apply elem_of_subdirs in Hq as (it0 & Hin0 & Hd0 & <-).
      exists p', items', it. split; [|done].
      by eapply listed_down.
Qed.

Lemma sum_list_with_fmap {A B} (f : A → B) (g : B → nat) (l : list A) :
  sum_list_with g (f <$> l) = sum_list_with (g ∘ f) l.
Proof. induction l as [|x l IH]; csimpl; [done|]. by rewrite IH. Qed.

(** Breadth-first draining.  [aq] is the queue with, for each path, a bound
    on the depth of the tree below it; the sum of the weights bounds the
    number of passes. *)
Lemma drain (m : nat) :
  ∀ (aq : list (nat * string)) (s : state),
    queue s = aq.*2 →
    Forall (λ np, bounded w owner repo branch pat np.1 np.2) aq →
    sum_list_with (λ np, weight w owner repo branch pat np.1 np.2) aq ≤ m →
    ∃ d,
      (∀ fuel, m ≤ fuel → while_queue' fuel s = Some (Returned d, stdout s)) ∧
      (∀ k, k ∈ dom d ↔
            k ∈ dom (code_files s) ∨
            ∃ q, q ∈ queue s ∧ reported w owner repo branch pat "file" q k).
Proof.
  assert (Hnil : ∀ m s, queue s = [] →
    ∃ d,
      (∀ fuel, m ≤ fuel → while_queue' fuel s = Some (Returned d, stdout s)) ∧
      (∀ k, k ∈ dom d ↔
            k ∈ dom (code_files s) ∨
            ∃ q, q ∈ queue s ∧ reported w owner repo branch pat "file" q k)).
  { intros m' s Hq. exists (code_files s). split.
    - intros fuel _. by apply while_queue_nil.
    - intros k. rewrite Hq. split; [by left|].
      intros [?|(q & Hin & _)]; [done|]. by apply elem_of_nil in Hin. }
  induction m as [|m IH]; intros aq s Hq Hb Hsum.
  - destruct aq as [|[n p] aq]; [by apply Hnil|]. exfalso.
    apply Forall_cons in Hb as [Hp _]. simpl in Hp, Hsum.
    destruct n as [|n]; [done|]. destruct Hp as (items & Hl & _).
    simpl in Hsum. rewrite Hl in Hsum. lia.
  - destruct aq as [|[n p] aq]; [by apply Hnil|].
    clear Hnil. apply Forall_cons in Hb as [Hp Hb]. simpl in Hp, Hsum.
    rewrite fmap_cons in Hq. simpl in Hq.
    destruct n as [|n]; [done|]. destruct Hp as (items & Hl & Hfiles & Hdirs).
    simpl in Hsum. rewrite Hl in Hsum.
    set (s1 := State (code_files s) aq.*2 (stdout s)).
    set (s2 := State (collect w pat items (code_files s))
                 (aq.*2 ++ subdirs items) (stdout s)).
    assert (Hit : iteration' p s1 = (Val None, s2)).
    { eapply iteration_success; [done|]. by rewrite for_each_retrievable. }
    destruct (IH (aq ++ ((λ q, (n, q)) <$> subdirs items))%list s2) as (d & Hrun & Hdom).
    + simpl. rewrite fmap_app. f_equal.
      rewrite <- list_fmap_compose. by rewrite list_fmap_id.
    + apply Forall_app. split; [done|].
      apply Forall_fmap, Forall_forall. intros q Hin. simpl.
      apply elem_of_subdirs in Hin as (it & Hin & Hd & <-). by apply Hdirs.
    + rewrite sum_list_with_app, sum_list_with_fmap. simpl.
      unfold compose. simpl.
      change (λ x, weight w owner repo branch pat n x)
        with (weight w owner repo branch pat n).
      lia.
    + exists d. split.
      * intros fuel Hle. destruct fuel as [|fuel]; [lia|].
        rewrite (while_queue_cons _ _ _ _ Hq). fold s1. rewrite Hit.
        apply Hrun. lia.
      * intros k. rewrite Hdom. simpl. rewrite Hq.
        rewrite elem_of_dom_collect by done.
        setoid_rewrite elem_of_app. setoid_rewrite elem_of_cons.
        split.
        -- intros [[?|Hhere]|(q & [Hin|Hin] & Hrep)].
           ++ by left.
           ++ right. exists p. split; [by left|].
              apply (reported_unfold _ _ _ items); [done|by left].
           ++ right. exists q. by split; [right|].
           ++ right. exists p. split; [by left|].
              apply (reported_unfold _ _ _ items); [done|]. right. by exists q.
        -- intros [?|(q & [->|Hin] & Hrep)].
           ++ by left; left.
           ++ apply (proj1 (reported_unfold _ _ _ items Hl)) in Hrep as [?|(q' & ? & ?)].
              ** by left; right.
              ** right. exists q'. by split; [right|].
           ++ right. exists q. by split; [left|].
Qed.

Lemma bounded_mono (n n' : nat) (p : string) :
  bounded w owner repo branch pat n p → n ≤ n' →
  bounded w owner repo branch pat n' p.
Proof.
  revert n' p. induction n as [|n IH]; intros n' p Hb Hle; [done|].
  destruct n' as [|n']; [lia|]. simpl in *.
  destruct Hb as (items & Hl & Hf & Hd). exists items.
  split; [done|]. split; [done|].
  intros it Hin Hty. apply IH; [by apply Hd|lia].
Qed.

(** A finite tree has a depth. *)
Lemma intact_bounded (p : string) :
  intact w owner repo branch pat p → ∃ n, bounded w owner repo branch pat n p.
Proof.
  induction 1 as [p items Hl Hfiles _ IH].
  assert (∃ n, ∀ it, it ∈ items → e_type it = "dir" →
                     bounded w owner repo branch pat n (e_path it)) as [n Hn].
  { clear Hl Hfiles. induction items as [|it items IHitems].
    - exists 0. intros it Hin. by apply elem_of_nil in Hin.
    - destruct IHitems as [n Hn]; [intros; apply IH; [by right|done]|].
      destruct (decide (e_type it = "dir")) as [Hd|Hd].
      + destruct (IH it) as [n' Hn']; [by left|done|].
        exists (n `max` n'). intros it' Hin Hd'.
        apply elem_of_cons in Hin as [->|Hin].
        * eapply bounded_mono; [done|lia].
        * eapply bounded_mono; [by apply Hn|lia].
      + exists n. intros it' Hin Hd'.
        apply elem_of_cons in Hin as [->|Hin]; [done|]. by apply Hn. }
  exists (S n), items. done.
Qed.

(** *** Where the loop's states come from *)

(** What the loop computes from a state it reaches is what the function
    computes. *)
Lemma reaches_run (s0 s : state) (fuel : nat) (r : outcome * list message) :
  reaches w owner repo branch pat s0 s →
  while_queue' fuel s = Some r →
  ∃ n, ∀ fuel', n ≤ fuel' → while_queue' fuel' s0 = Some r.
Proof.
  intros Hreach. revert fuel r.
  induction Hreach as [|s p rest s' _ IH Hq Hit]; intros fuel r Hrun.
  - exists fuel. intros fuel' Hle. by eapply while_queue_mono.
  - apply (IH (S fuel)). by rewrite (while_queue_cons _ _ _ _ Hq), Hit.
Qed.

(** What one entry can add: a directory entry its path to the queue, a file
    entry its path to the keys.  This holds whether or not the entry makes
    the body raise. *)
Lemma process_item_footprint (item : entry) (s s' : state) (r : result unit) :
  process_item' item s = (r, s') →
  (∀ q, q ∈ queue s' → q ∈ queue s ∨ (e_type item = "dir" ∧ q = e_path item)) ∧
  (∀ k, k ∈ dom (code_files s') →
        k ∈ dom (code_files s) ∨ (e_type item = "file" ∧ k = e_path item)).
Proof.
  unfold process_item.
  destruct (String.eqb_spec (e_type item) "file") as [Hf|Hf].
  - assert (Hstore : ∀ t k, k ∈ dom (<[e_path item := t]> (code_files s)) →
              k ∈ dom (code_files s) ∨ e_type item = "file" ∧ k = e_path item).
    { intros t k. rewrite dom_insert, elem_of_union, elem_of_singleton.
      intros [->|?]; [by right|by left]. }
    assert (Hinline : inline_or_skip item s = (r, s') →
      (∀ q, q ∈ queue s' → q ∈ queue s ∨ (e_type item = "dir" ∧ q = e_path item)) ∧
      (∀ k, k ∈ dom (code_files s') →
            k ∈ dom (code_files s) ∨ (e_type item = "file" ∧ k = e_path item))).
    { unfold inline_or_skip, decode_inline. unfold_monad.
      destruct (e_content item) as [c|]; [|intros [= <- <-]; simpl; by auto].
      destruct (truthy c); [|intros [= <- <-]; simpl; by auto].
      destruct (e_encoding item) as [e|]; simpl; [|intros [= <- <-]; simpl; by auto].
      destruct (eq_str e "base64"); simpl; [|intros [= <- <-]; simpl; by auto].
      destruct (b64decode c) as [bs|[]]; simpl;
        try (intros [= <- <-]; simpl; by auto).
      destruct (decode_utf8 bs) as [t|[]]; simpl; intros [= <- <-]; simpl; by eauto. }
    destruct (e_download_url item) as [u|]; [|done].
    destruct (truthy u); [|done].
    rewrite download_file_eq.
    destruct (download_text' u); intros [= <- <-]; simpl; by eauto.
  - destruct (String.eqb_spec (e_type item) "dir") as [Hd|Hd].
    + unfold_monad. intros [= <- <-]. simpl. split; [|by auto].
      intros q [?|Hin%list_elem_of_singleton]%elem_of_app; by auto.
    + unfold_monad. intros [= <- <-]. by auto.
Qed.

Lemma for_each_footprint (items : list entry) (s s' : state) (r : result unit) :
  for_each items process_item' s = (r, s') →
  (∀ q, q ∈ queue s' →
        q ∈ queue s ∨ ∃ it, it ∈ items ∧ e_type it = "dir" ∧ e_path it = q) ∧
  (∀ k, k ∈ dom (code_files s') →
        k ∈ dom (code_files s) ∨
        ∃ it, it ∈ items ∧ e_type it = "file" ∧ e_path it = k).
Proof.
  revert s. induction items as [|it items IH]; intros s; simpl.
  - unfold_monad. intros [= <- <-]. by auto.
  - unfold mbind, M_bind.
    destruct (process_item' it s) as [[[]|e] s1] eqn:Hit.
    + intros Hrest. apply IH in Hrest as [Hq Hk].
      apply process_item_footprint in Hit as [Hq1 Hk1]. split.
      * intros q [Hin|(it' & ? & ? & ?)]%Hq.
        -- apply Hq1 in Hin as [?|[? ->]]; [by left|].
           right. exists it. split; [by left|done].
        -- right. exists it'. split; [by right|done].
      * intros k [Hin|(it' & ? & ? & ?)]%Hk.
        -- apply Hk1 in Hin as [?|[? ->]]; [by left|].
           right. exists it. split; [by left|done].
        -- right. exists it'. split; [by right|done].
    + intros [= <- <-].
      apply process_item_footprint in Hit as [Hq1 Hk1]. split.
      * intros q [?|[? ->]]%Hq1; [by left|].
        right. exists it. split; [by left|done].
      * intros k [?|[? ->]]%Hk1; [by left|].
        right. exists it. split; [by left|done].
Qed.

(** What one pass can add, whether it falls through, returns or raises. *)
Lemma iteration_footprint (p : string) (s s' : state)
    (r : result (option (gmap string string))) :
  iteration' p s = (r, s') →
  (∀ q, q ∈ queue s' →
        q ∈ queue s ∨
        ∃ items it, list_dir' p = Some items ∧ it ∈ items ∧
                    e_type it = "dir" ∧ e_path it = q) ∧
  (∀ k, k ∈ dom (code_files s') →
        k ∈ dom (code_files s) ∨
        ∃ items it, list_dir' p = Some items ∧ it ∈ items ∧
                    e_type it = "file" ∧ e_path it = k).
Proof.
  destruct (list_dir' p) as [items|] eqn:Hl.
  - rewrite (iteration_listed _ items) by done.
    destruct (for_each items process_item' s) as [[[]|e] s1] eqn:Hfor;
      apply for_each_footprint in Hfor as [Hq Hk].
    + intros [= <- <-]. split.
      * intros q [?|(it & ?)]%Hq; [by left|right; by exists items, it].
      * intros k [?|(it & ?)]%Hk; [by left|right; by exists items, it].
    + assert (queue s' = queue s1 ∧ code_files s' = code_files s1 →
              (∀ q, q ∈ queue s' → q ∈ queue s ∨
                 ∃ items0 it, Some items = Some items0 ∧ it ∈ items0 ∧
                              e_type it = "dir" ∧ e_path it = q) ∧
              (∀ k, k ∈ dom (code_files s') → k ∈ dom (code_files s) ∨
                 ∃ items0 it, Some items = Some items0 ∧ it ∈ items0 ∧
                              e_type it = "file" ∧ e_path it = k)) as Hsame.
      { intros [-> ->]. split.
        - intros q [?|(it & ?)]%Hq; [by left|right; by exists items, it].
        - intros k [?|(it & ?)]%Hk; [by left|right; by exists items, it]. }
      destruct (on_error owner repo p e) as [h|] eqn:Hh.
      * destruct (on_error_handles p e h s1 Hh) as [msg ->].
        intros [= <- <-]. by apply Hsame.
      * intros [= <- <-]. by apply Hsame.
  - destruct (iteration_failure p s Hl) as [msg ->].
    intros [= <- <-]. simpl. by auto.
Qed.

(** A path reported as a directory below [start] is listed from [start]. *)
Lemma reported_dir_listed (start q : string) :
  reported w owner repo branch pat "dir" start q →
  listed w owner repo branch pat start q.
Proof.
  intros (p & items & it & Hlisted & Hl & Hin & Hd & <-).
  eapply listed_trans; [done|]. eapply listed_down; [done..|]. constructor.
Qed.

Lemma provenance_pass (start : string) (s s' : state) (p : string)
    (rest : list string) (r : result (option (gmap string string))) :
  provenance' start s →
  queue s = p :: rest →
  iteration' p (State (code_files s) rest (stdout s)) = (r, s') →
  provenance' start s'.
Proof.
  intros [Hq Hk] Hqueue Hit.
  assert (listed w owner repo branch pat start p) as Hp.
  { destruct (Hq p) as [->|?]; [rewrite Hqueue; by left|constructor|].
    by apply reported_dir_listed. }
  apply iteration_footprint in Hit as [Hq' Hk']. simpl in Hq', Hk'. split.
  - intros q [Hin|(items & it & ? & ? & ? & ?)]%Hq'.
    + apply Hq. rewrite Hqueue. by right.
    + right. by exists p, items, it.
  - intros k [Hin|(items & it & ? & ? & ? & ?)]%Hk'.
    + by apply Hk.
    + by exists p, items, it.
Qed.

Lemma provenance_reaches (path : string) (s : state) :
  reaches' (initial path) s →
  provenance' (strip "/" path) s.
Proof.
  induction 1 as [|s p rest s' _ IH Hq Hit].
  - split; simpl.
    + intros q ->%list_elem_of_singleton. by left.
    + intros k Hk. by rewrite dom_empty in Hk.
  - by eapply provenance_pass.
Qed.

(** The mapping the function returns is empty or the mapping of a state
    the loop reaches. *)
Lemma returned_from_reached (fuel : nat) (s0 s : state) (d : gmap string string)
    (out : list message) :
  reaches' s0 s →
  while_queue' fuel s = Some (Returned d, out) →
  d = ∅ ∨ ∃ s', reaches' s0 s' ∧ d = code_files s'.
Proof.
  revert s. induction fuel as [|fuel IH]; intros s Hreach.
  - simpl. destruct (queue s); [|done]. intros [= <- _]. right. by exists s.
  - destruct (queue s) as [|p rest] eqn:Hq.
    + rewrite while_queue_nil by done. intros [= <- _]. right. by exists s.
    + rewrite (while_queue_cons _ _ _ _ Hq).
      destruct (iteration' p _) as [[[d'|]|e] s'] eqn:Hit; [|apply IH|done].
      * intros [= <- _]. left.
        destruct (list_dir' p) as [items|] eqn:Hl.
        -- rewrite (iteration_listed _ items) in Hit by done.
           destruct (for_each _ _ _) as [[[]|e] s1]; [done|].
           destruct (on_error owner repo p e) as [h|] eqn:Hh; [|done].
           destruct (on_error_handles p e h s1 Hh) as [msg Hmsg].
           rewrite Hmsg in Hit. by simplify_eq.
        -- destruct (iteration_failure p (State (code_files s) rest (stdout s)) Hl)
             as [msg Hmsg].
           rewrite Hmsg in Hit. by simplify_eq.
      * by eapply reaches_pass.
Qed.

(** ** The properties of the specification *)


(** C2, as amended.  The loop is at its test with [p] at the front of the
    queue, whatever [code_files] holds by then, and the listing request for
    [p] fails: [session.get] raises, or the status is 4xx or 5xx, or the
    body is not JSON.  Then the function prints one diagnostic and returns
    the empty mapping. *)
Theorem failed_listing_returns_empty (path : string) (s : state) (p : string)
    (rest : list string) :
  reaches' (initial path) s →
  queue s = p :: rest →
  listing_fails' p →
  ∃ (n : nat) (msg : message),
    ∀ fuel, n ≤ fuel →
      get_github_code_files' fuel path = Some (Returned ∅, (stdout s ++ [msg])%list).
Proof.
  intros Hreach Hq Hfail%listing_fails_None.
  destruct (iteration_failure p (State (code_files s) rest (stdout s)) Hfail)
    as [msg Hmsg].
  destruct (reaches_run _ s 1 (Returned ∅, (stdout s ++ [msg])%list) Hreach) as [n Hn].
  { by rewrite (while_queue_cons _ _ _ _ Hq), Hmsg. }
  by exists n, msg.
Qed.


(** C6, as amended.  In every state the loop reaches, and in the state any
    pass leaves behind (whether it falls through, returns or raises), a
    path in the queue is the starting path or was reported as a directory,
    and a key of the mapping was reported as a file.  The keys of a
    returned mapping were reported as files. *)
Theorem queue_and_keys_provenance (path : string) (s : state) :
  reaches' (initial path) s →
  provenance' (strip "/" path) s ∧
  (∀ p rest r s',
     queue s = p :: rest →
     iteration' p (State (code_files s) rest (stdout s)) = (r, s') →
     provenance' (strip "/" path) s') ∧
  (∀ fuel d out,
     while_queue' fuel s = Some (Returned d, out) →
     ∀ k, k ∈ dom d → reported' "file" (strip "/" path) k).
Proof.
  intros Hreach. pose proof (provenance_reaches _ _ Hreach) as Hprov.
  split; [done|]. split.
  - intros p rest r s' Hq Hit. by eapply provenance_pass.
  - intros fuel d out Hrun k Hk.
    destruct (returned_from_reached _ _ _ _ _ Hreach Hrun) as [->|(s' & Hs' & ->)].
    + by rewrite dom_empty in Hk.
    + by apply (provenance_reaches _ _ Hs').
Qed.

Lemma for_each_app (pre post : list entry) (s : state) :
  for_each (pre ++ post) process_item' s =
    match for_each pre process_item' s with
    | (Val _, s1) => for_each post process_item' s1
    | (Exc e, s1) => (Exc e, s1)
    end.
Proof.
  revert s. induction pre as [|it pre IH]; intros s; simpl; [done|].
  unfold mbind, M_bind.
  destruct (process_item' it s) as [[[]|e] s1]; [apply IH|done].
Qed.

(** C4.  For a file entry: (1) with a non-empty download URL whose request,
    sent with the token in its [Authorization] header, is answered, the
    value stored under the entry's path is the text of that answer; (2)
    without a non-empty download URL, with non-empty content tagged
    [base64] that decodes, the value stored is the decoded text; (3) with a
    non-empty download URL the inline content and its tag play no part. *)
Theorem two_tier_retrieval (item : entry) (s : state) :
  e_type item = "file" →
  (∀ u r,
     e_download_url item = Some (JStr u) → u ≠ "" →
     w (Request u [("Authorization", "token " ++ pat)]) = GetReturns r →
     status_ok r →
     process_item' item s =
       (Val tt, State (<[e_path item := text r]> (code_files s)) (queue s) (stdout s))) ∧
  (∀ c e raw t,
     has_download_url item = false →
     e_content item = Some c → truthy c = true →
     e_encoding item = Some e → eq_str e "base64" = true →
     b64decode c = Val raw → decode_utf8 raw = Val t →
     process_item' item s =
       (Val tt, State (<[e_path item := t]> (code_files s)) (queue s) (stdout s))) ∧
  (has_download_url item = true →
   ∀ c e,
     process_item' item s =
       process_item' (Entry (e_type item) (e_path item) (e_download_url item) c e) s).
Proof.
  intros Hty. split; [|split].
  - intros u r Hu Hne Hw Hst. apply process_item_file; [done|].
    unfold retrieve, download_text, download_request. rewrite Hu. simpl.
    apply String.eqb_neq in Hne. rewrite Hne. simpl. rewrite Hw.
    unfold status_ok in Hst.
    destruct (400 <=? status_code r)%Z eqn:H1, (status_code r <? 600)%Z eqn:H2;
      simpl; try done.
    exfalso. apply Hst. lia.
  - intros c e raw t Hno Hc Htc He Hb64 Hraw Ht. apply process_item_file; [done|].
    unfold retrieve, has_inline_base64, has_download_url in *.
    rewrite Hc, He, Htc, Hb64. simpl.
    unfold inline_text. rewrite Hraw, Ht.
    destruct (e_download_url item) as [u|]; [|done]. by rewrite Hno.
  - unfold has_download_url, process_item. intros Hhas c e. simpl. rewrite Hty. simpl.
    destruct (e_download_url item) as [u|]; [|done]. by rewrite Hhas.
Qed.

(** C9.  A file entry without a non-empty download URL, with non-empty
    ['content'] and no ['encoding'] key: the body of the [for] loop raises
    [KeyError('encoding')] and leaves the state as it was; no [except]
    clause catches it, so the function raises from wherever the entry sits
    in a listing, with the output printed up to there. *)
Theorem missing_encoding_raises_KeyError (item : entry) (c : jval) :
  e_type item = "file" →
  has_download_url item = false →
  e_content item = Some c →
  truthy c = true →
  e_encoding item = None →
  (∀ s, process_item' item s = (Exc (KeyError "encoding"), s)) ∧
  (∀ p, on_error owner repo p (KeyError "encoding") = None) ∧
  (∀ fuel s p rest pre post s1,
     queue s = p :: rest →
     list_dir' p = Some (pre ++ item :: post)%list →
     for_each pre process_item' (State (code_files s) rest (stdout s)) = (Val tt, s1) →
     while_queue' (S fuel) s = Some (Raised (KeyError "encoding"), stdout s1)).
Proof.
  intros Hty Hno Hc Htc He.
  assert (∀ s, process_item' item s = (Exc (KeyError "encoding"), s)) as Hraise.
  { intros s. unfold process_item, inline_or_skip, has_download_url in *.
    rewrite Hty, Hc, Htc, He. simpl.
    destruct (e_download_url item) as [u|]; [by rewrite Hno|done]. }
  split; [done|]. split; [done|].
  intros fuel s p rest pre post s1 Hq Hl Hpre.
  rewrite (while_queue_cons _ _ _ _ Hq), (iteration_listed _ _ _ Hl).
  rewrite for_each_app, Hpre. simpl. unfold mbind, M_bind.
  by rewrite Hraise.
Qed.

(** C10.  A file entry with a non-empty download URL whose request fails:
    the body prints the download warning and changes nothing else.  The
    entry's inline content and its tag are not looked at, whatever they
    are: nothing is stored under the entry's path. *)
Theorem failed_download_has_no_fallback (item : entry) (u : jval) :
  e_type item = "file" →
  e_download_url item = Some u →
  truthy u = true →
  download_text' u = None →
  ∀ s : state,
    process_item' item s =
      (Val tt, State (code_files s) (queue s)
                 (stdout s ++ [WarnDownload (e_path item) u])).
Proof.
  intros Hty Hu Htu Hfail s. unfold process_item.
  rewrite Hty, Hu, Htu. simpl. by rewrite download_file_eq, Hfail.
Qed.


(** What does hold of C3: a file whose download fails, or which has no
    non-empty download URL and no non-empty content, or whose content is
    tagged other than [base64], or whose ASCII content is rejected by the
    base64 or the UTF-8 decoder, is skipped with one warning. *)
Lemma skipped_with_warning (item : entry) (s : state) :
  e_type item = "file" →
  (∃ u, e_download_url item = Some u ∧ truthy u = true ∧ download_text' u = None) ∨
  (has_download_url item = false ∧
     (from_option truthy false (e_content item) = false ∨
      ∃ c e, e_content item = Some c ∧ truthy c = true ∧ e_encoding item = Some e ∧
        (eq_str e "base64" = false ∨
         b64decode c = Exc BinasciiError ∨
         ∃ raw, b64decode c = Val raw ∧ decode_utf8 raw = Exc UnicodeDecodeError))) →
  ∃ msg, process_item' item s =
           (Val tt, State (code_files s) (queue s) (stdout s ++ [msg])).
Proof.
  intros Hty Hcases. unfold process_item. rewrite Hty. simpl.
  destruct Hcases as [(u & -> & -> & Hfail)|[Hno Hcases]].
  { rewrite download_file_eq, Hfail. by eexists. }
  assert (∃ msg, inline_or_skip item s =
            (Val tt, State (code_files s) (queue s) (stdout s ++ [msg]))) as Hskip.
  { unfold inline_or_skip, decode_inline. unfold_monad.
    destruct Hcases as [Hc|(c & e & -> & -> & -> & Hcases)].
    - destruct (e_content item) as [c|]; simpl in Hc; [rewrite Hc|]; by eexists.
    - simpl. destruct (eq_str e "base64") eqn:He; [|by eexists].
      destruct Hcases as [?|[->|(raw & -> & ->)]]; [done|by eexists..]. }
  unfold has_download_url in Hno.
  destruct (e_download_url item) as [u|]; [by rewrite Hno|done].
Qed.

End Body.

(** ** Two runs against the same remote state *)

Section TwoRuns.
Variables w1 w2 : world.
Variables owner repo branch pat : string.
Hypothesis same_responses : ∀ req, w1 req = w2 req.

Lemma session_get_same (u : jval) (h : list (string * string)) (s : state) :
  session_get w1 u h s = session_get w2 u h s.
Proof. unfold session_get. destruct u; try done. by rewrite same_responses. Qed.

Lemma process_item_same (item : entry) (s : state) :
  process_item w1 pat item s = process_item w2 pat item s.
Proof.
  unfold process_item.
  destruct (String.eqb (e_type item) "file"); [|done].
  destruct (e_download_url item) as [u|]; [|done].
  destruct (truthy u); [|done].
  unfold download_file, try_except, mbind, M_bind.
  by rewrite session_get_same.
Qed.

Lemma for_each_same (items : list entry) (s : state) :
  for_each items (process_item w1 pat) s = for_each items (process_item w2 pat) s.
Proof.
  revert s. induction items as [|it items IH]; intros s; simpl; [done|].
  unfold mbind, M_bind. rewrite process_item_same.
  destruct (process_item w2 pat it s) as [[[]|e] s1]; [apply IH|done].
Qed.

Lemma iteration_same (p : string) (s : state) :
  iteration w1 owner repo branch pat p s = iteration w2 owner repo branch pat p s.
Proof.
  unfold iteration, try_except, mbind, M_bind. rewrite session_get_same.
  destruct (session_get w2 _ _ s) as [[r|e] s1]; [|done].
  destruct (raise_for_status r s1) as [[[]|e] s2]; [|done].
  destruct (response_json r s2) as [[l|e] s3]; [|done].
  by rewrite for_each_same.
Qed.

(** C8.  Two worlds that answer every request alike: the function, run on
    the same arguments with the same fuel, ends the same way in both, with
    the same mapping and the same output. *)
Theorem same_responses_same_mapping (path : string) (fuel : nat) :
  get_github_code_files w1 owner repo branch pat fuel path =
  get_github_code_files w2 owner repo branch pat fuel path.
Proof.
  unfold get_github_code_files. generalize (initial path).
  induction fuel as [|fuel IH]; intros s; simpl; [done|].
  destruct (queue s) as [|p rest]; [done|].
  rewrite iteration_same.
  destruct (iteration w2 _ _ _ _ p _) as [[[d|]|e] s']; [done|apply IH|done].
Qed.

End TwoRuns.

(** ** The example repositories *)

Ltac in_list H :=
  repeat (apply elem_of_cons in H as [->|H]); [..|by apply elem_of_nil in H].

(** C3: the function on two listings with a file whose inline content does
    not decode.  With the ['encoding'] key missing it raises [KeyError];
    with a character outside ASCII in content tagged [base64] it prints the
    JSON diagnostic and returns the empty mapping.  In both listings a file
    that can be retrieved comes before and another after. *)
Theorem undecodable_inline_content_aborts (fuel : nat) :
  (has_download_url untagged = false ∧
   e_content untagged ≫= inline_text = None ∧
   get_github_code_files untagged_tree "octocat" "benz" "main" "tok" (S fuel) ""
     = Some (Raised (KeyError "encoding"), [])) ∧
  (has_download_url accented = false ∧
   e_content accented ≫= inline_text = None ∧
   get_github_code_files accented_tree "octocat" "benz" "main" "tok" (S fuel) ""
     = Some (Returned ∅, [ErrJSON ""])) ∧
  retrieve untagged_tree "tok" a_txt = Some "hello" ∧
  retrieve untagged_tree "tok" c_txt = Some "world".
Proof. repeat split; reflexivity. Qed.

(** The small tree is intact below the root. *)
Lemma small_tree_intact : intact small_tree "octocat" "benz" "main" "tok" "".
Proof.
  apply (intact_dir _ _ _ _ _ "" [a_txt; sub_dir]); [done|..];
    intros it Hin Hty; in_list Hin; try done.
  clear Hty.
  apply (intact_dir _ _ _ _ _ "sub" [b_txt]); [done|..];
    intros it Hin Hty; in_list Hin; done.
Defined.

(** The listings of the small tree, read off the world alone. *)
Lemma small_tree_listings (p : string) (items : list entry) :
  list_dir small_tree "octocat" "benz" "main" "tok" p = Some items →
  items = [a_txt; sub_dir] ∨ items = [b_txt].
Proof.
  unfold list_dir, small_tree, private_repo. simpl.
  destruct (_ =? _)%string; simpl; [intros [= <-]; by left|].
  destruct (_ =? _)%string; simpl; [intros [= <-]; by right|done].
Qed.

(** The file paths reported below the root of the small tree, read off the
    world alone: [a.txt] and [sub/b.txt]. *)
Lemma small_tree_reported_files (k : string) :
  reported small_tree "octocat" "benz" "main" "tok" "file" "" k ↔
  k = "a.txt" ∨ k = "sub/b.txt".
Proof.
  split.
  - intros (p & items & it & _ & Hl & Hin & Hty & <-).
    apply small_tree_listings in Hl as [-> | ->]; in_list Hin; by auto.
  - intros [-> | ->].
    + exists "", [a_txt; sub_dir], a_txt. split; [constructor|].
      split; [done|]. split; [by left|done].
    + exists "sub", [b_txt], b_txt. split.
      * apply (listed_down _ _ _ _ _ "" [a_txt; sub_dir] sub_dir); [done| |done|constructor].
        right. by left.
      * split; [done|]. split; [by left|done].
Qed.


(** The loop on the broken subtree, after the pass on the root. *)
Lemma broken_subtree_after_root :
  reaches broken_subtree "octocat" "benz" "main" "tok" (initial "")
    (State {["a.txt" := "hello"]} ["sub"] []).
Proof.
  eapply (reaches_pass _ _ _ _ _ _ (initial "") "" []); [constructor|done..].
Defined.

(** C2 on the broken subtree: [a.txt] is in the mapping when the listing of
    [sub] is answered 404. *)
Lemma broken_subtree_returns_empty :
  ∃ (n : nat) (msg : message),
    ∀ fuel, n ≤ fuel →
      get_github_code_files broken_subtree "octocat" "benz" "main" "tok" fuel ""
        = Some (Returned ∅, ([] ++ [msg])%list).
Proof.
  apply (failed_listing_returns_empty broken_subtree "octocat" "benz" "main" "tok" ""
           (State {["a.txt" := "hello"]} ["sub"] []) "sub" []).
  - exact broken_subtree_after_root.
  - reflexivity.
  - apply (fails_status _ _ _ _ _ _ (Response 404 "" None)); [reflexivity|simpl; lia].
Defined.

(** The claim C2 as stated fails: a listing answered 300 with a body that
    parses is processed, and the mapping returned is not empty. *)
Lemma non_2xx_listing_is_processed :
  ¬ (∀ r fuel d out,
       multiple_choices (Request (api "") (listing_headers "tok")) = GetReturns r →
       ¬ (200 ≤ status_code r < 300)%Z →
       get_github_code_files multiple_choices "octocat" "benz" "main" "tok" fuel ""
         = Some (Returned d, out) →
       d = ∅).
Proof.
  intros Hclaim.
  specialize (Hclaim (Response 300 "" (Some (Many [a_txt]))) 1
                {["a.txt" := "hello"]} [] eq_refl).
  assert ({["a.txt" := "hello"]} = (∅ : gmap string string)) as Hempty.
  { apply Hclaim; [simpl; lia|reflexivity]. }
  by apply (f_equal (λ d, d !! "a.txt")) in Hempty.
Qed.

(** C4 on the entry [sub/b.txt] of the small tree. *)
Lemma two_tier_retrieval_b_txt :
  process_item small_tree "tok" b_txt (State ∅ [] []) =
    (Val tt, State {["sub/b.txt" := "world"]} [] []) ∧
  process_item small_tree "tok" a_txt (State ∅ [] []) =
    (Val tt, State {["a.txt" := "hello"]} [] []).
Proof.
  split.
  - apply (proj1 (two_tier_retrieval small_tree "tok" b_txt (State ∅ [] []) eq_refl)
             "https://raw.example/sub/b.txt" (raw "world")); [done..|].
    unfold status_ok. simpl. lia.
  - apply (proj1 (proj2 (two_tier_retrieval small_tree "tok" a_txt (State ∅ [] []) eq_refl))
             (JStr "aGVsbG8=") (JStr "base64") [104; 101; 108; 108; 111]%Z "hello");
      reflexivity.
Defined.


(** C6 on the broken subtree, after the pass on the root. *)
Lemma broken_subtree_provenance :
  provenance broken_subtree "octocat" "benz" "main" "tok" ""
    (State {["a.txt" := "hello"]} ["sub"] []).
Proof.
  exact (proj1 (queue_and_keys_provenance broken_subtree "octocat" "benz" "main" "tok" ""
                  _ broken_subtree_after_root)).
Defined.

(** In the world of the single file no listing reports a directory. *)
Lemma single_file_lists_no_directory (p : string) (items : list entry) (it : entry) :
  list_dir single_file "octocat" "benz" "main" "tok" p = Some items →
  it ∈ items →
  e_type it ≠ "dir".
Proof.
  unfold list_dir, single_file, private_repo. simpl.
  destruct (String.eqb _ _); simpl; [|done].
  intros [= <-] Hin. by in_list Hin.
Qed.

(** The claim C6 as stated fails: the starting path is in the queue and no
    listing reports it as a directory.  Here it is a file. *)
Lemma starting_path_is_enqueued_unreported :
  ¬ (∀ s q,
       reaches single_file "octocat" "benz" "main" "tok" (initial "a.txt") s →
       q ∈ queue s →
       reported single_file "octocat" "benz" "main" "tok" "dir" "a.txt" q).
Proof.
  intros Hclaim.
  destruct (Hclaim (initial "a.txt") "a.txt") as (p & items & it & _ & Hl & Hin & Hd & _).
  - constructor.
  - by left.
  - by apply (single_file_lists_no_directory p items it).
Qed.


(** C8 on the small tree and on a world that answers as it does. *)
Lemma small_tree_twice :
  get_github_code_files small_tree "octocat" "benz" "main" "tok" 2 "" =
  get_github_code_files (λ req, small_tree (Request (url req) (headers req)))
    "octocat" "benz" "main" "tok" 2 "".
Proof.
  apply (same_responses_same_mapping small_tree
           (λ req, small_tree (Request (url req) (headers req)))).
  intros req. by destruct req.
Defined.

(** C9 on the untagged entry, in its listing. *)
Lemma untagged_raises_KeyError :
  (∀ s, process_item untagged_tree "tok" untagged s = (Exc (KeyError "encoding"), s)) ∧
  get_github_code_files untagged_tree "octocat" "benz" "main" "tok" 1 ""
    = Some (Raised (KeyError "encoding"), []).
Proof.
  destruct (missing_encoding_raises_KeyError untagged_tree "octocat" "benz" "main" "tok"
              untagged (JStr "a") eq_refl eq_refl eq_refl eq_refl eq_refl)
    as (Hitem & _ & Hrun).
  split; [exact Hitem|].
  exact (Hrun 0 (initial "") "" [] [a_txt] [c_txt]
           (State {["a.txt" := "hello"]} [] []) eq_refl eq_refl eq_refl).
Defined.

(** C10 on the entry with a dead link and valid inline content: the
    content would decode to "hello", and the run returns the mapping
    without [d.txt]. *)
Lemma dead_link_is_not_replaced :
  e_content both_sources ≫= inline_text = Some "hello" ∧
  process_item dead_link_tree "tok" both_sources (State ∅ [] []) =
    (Val tt, State ∅ [] [WarnDownload "d.txt" (JStr "https://raw.example/d.txt")]) ∧
  get_github_code_files dead_link_tree "octocat" "benz" "main" "tok" 1 "" =
    Some (Returned {["c.txt" := "world"]},
          [WarnDownload "d.txt" (JStr "https://raw.example/d.txt")]).
Proof.
  split; [reflexivity|]. split; [|reflexivity].
  exact (failed_download_has_no_fallback dead_link_tree "tok" both_sources
           (JStr "https://raw.example/d.txt") eq_refl eq_refl eq_refl eq_refl
           (State ∅ [] [])).
Defined.

(** ** The starting path *)

Lemma rev_app_app (s t acc : string) :
  String.rev_app (s ++ t) acc = String.rev_app t (String.rev_app s acc).
Proof. revert acc. induction s as [|a s IH]; intros acc; [done|]. apply IH. Qed.

Lemma rev_app_rev_app (s acc acc' : string) :
  String.rev_app (String.rev_app s acc) acc' = String.rev_app acc (s ++ acc').
Proof.
  revert acc acc'. induction s as [|a s IH]; intros acc acc'; [done|].
  simpl. by rewrite IH.
Qed.

Lemma string_app_nil_r (s : string) : s ++ "" = s.
Proof.
  induction s as [|a s IH]; [done|].
  change (String a (s ++ "") = String a s). by rewrite IH.
Qed.

Lemma rev_rev (s : string) : String.rev (String.rev s) = s.
Proof.
  unfold String.rev. rewrite rev_app_rev_app.
  change (String.rev_app "" (s ++ "")) with (s ++ ""). apply string_app_nil_r.
Qed.

Lemma lstrip_head (c a : ascii) (s t : string) :
  lstrip c s = String a t → a ≠ c.
Proof.
  induction s as [|b s IH]; simpl; [done|].
  destruct (Ascii.eqb_spec b c) as [->|Hne]; [done|]. by intros [= <- _].
Qed.

(** [lstrip] drops a run of [c] from the front and nothing else. *)
Lemma lstrip_suffix (c : ascii) (s : string) :
  ∃ run, s = run ++ lstrip c s ∧ lstrip c run = "".
Proof.
  induction s as [|a s (run & Hs & Hrun)]; [by exists ""|]. simpl.
  destruct (Ascii.eqb_spec a c) as [->|Hne]; [|by exists ""].
  exists (String c run). split.
  - change (String c s = String c (run ++ lstrip c s)). by rewrite <- Hs.
  - simpl. by rewrite Ascii.eqb_refl.
Qed.

Lemma lstrip_idemp (c : ascii) (s : string) : lstrip c (lstrip c s) = lstrip c s.
Proof.
  induction s as [|a s IH]; [done|]. simpl.
  destruct (Ascii.eqb a c) eqn:Ha; [done|]. simpl. by rewrite Ha.
Qed.

Lemma lstrip_app_run (c : ascii) (run s : string) :
  lstrip c run = "" → lstrip c (run ++ s) = lstrip c s.
Proof.
  induction run as [|a run IH]; [done|].
  change (lstrip c (String a run) = "" → lstrip c (String a (run ++ s)) = lstrip c s).
  simpl. destruct (Ascii.eqb a c); [apply IH|done].
Qed.

Lemma string_app_assoc (s t u : string) : (s ++ t) ++ u = s ++ (t ++ u).
Proof.
  induction s as [|a s IH]; [done|].
  change (String a ((s ++ t) ++ u) = String a (s ++ (t ++ u))). by rewrite IH.
Qed.

Lemma rev_app_acc (s acc : string) : String.rev_app s acc = String.rev s ++ acc.
Proof.
  unfold String.rev. revert acc. induction s as [|a s IH]; intros acc; [done|].
  simpl. rewrite IH, (IH (String a "")), string_app_assoc. done.
Qed.

Lemma rev_app_distr (s t : string) : String.rev (s ++ t) = String.rev t ++ String.rev s.
Proof. unfold String.rev at 1. by rewrite rev_app_app, rev_app_acc. Qed.

Lemma lstrip_app (c : ascii) (s t : string) :
  lstrip c (s ++ t) =
    match lstrip c s with
    | "" => lstrip c t
    | String a u => String a u ++ t
    end.
Proof.
  induction s as [|a s IH]; [done|].
  change (String a s ++ t) with (String a (s ++ t)). simpl.
  by destruct (Ascii.eqb a c).
Qed.

Lemma lstrip_id (c : ascii) (s : string) :
  (∀ t, s ≠ String c t) → lstrip c s = s.
Proof.
  destruct s as [|a s]; [done|]. intros Hne. simpl.
  destruct (Ascii.eqb_spec a c) as [->|?]; [by destruct (Hne s)|done].
Qed.

(** [rstrip] drops a run of [c] from the back and nothing else. *)
Lemma rstrip_prefix (c : ascii) (s : string) :
  ∃ run, s = rstrip c s ++ run.
Proof.
  destruct (lstrip_suffix c (String.rev s)) as (run & Hs & _).
  exists (String.rev run). unfold rstrip.
  by rewrite <- rev_app_distr, <- Hs, rev_rev.
Qed.

Lemma rstrip_tail (c : ascii) (s t : string) :
  rstrip c s ≠ t ++ String c "".
Proof.
  unfold rstrip. intros Heq. apply (f_equal String.rev) in Heq.
  rewrite rev_rev, rev_app_distr in Heq.
  by apply lstrip_head in Heq.
Qed.

Lemma strip_head (c : ascii) (s t : string) : strip c s ≠ String c t.
Proof.
  unfold strip. intros Heq.
  destruct (rstrip_prefix c (lstrip c s)) as [run Hrun].
  rewrite Heq in Hrun. by apply lstrip_head in Hrun.
Qed.

Lemma strip_tail (c : ascii) (s t : string) : strip c s ≠ t ++ String c "".
Proof. apply rstrip_tail. Qed.

Lemma strip_idemp (c : ascii) (s : string) : strip c (strip c s) = strip c s.
Proof.
  unfold strip at 1. rewrite lstrip_id by (intros t; apply strip_head).
  unfold rstrip. rewrite lstrip_id, rev_rev; [done|].
  intros t Heq. apply (f_equal String.rev) in Heq. rewrite rev_rev in Heq.
  change (String.rev (String c t)) with (String.rev_app t (String c "")) in Heq.
  rewrite rev_app_acc in Heq. by apply strip_tail in Heq.
Qed.

Lemma strip_cons (c : ascii) (s : string) : strip c (String c s) = strip c s.
Proof. unfold strip. simpl. by rewrite Ascii.eqb_refl. Qed.

Lemma strip_snoc (c : ascii) (s : string) : strip c (s ++ String c "") = strip c s.
Proof.
  unfold strip. rewrite lstrip_app. simpl. rewrite Ascii.eqb_refl.
  destruct (lstrip c s) as [|a u]; [done|].
  unfold rstrip. rewrite rev_app_distr.
  change (String.rev (String c "")) with (String c "").
  change (String c "" ++ String.rev (String a u)) with (String c (String.rev (String a u))).
  simpl. by rewrite Ascii.eqb_refl.
Qed.

(** X1.  A ['/'] in front of the starting path or behind it changes nothing:
    the function ends the same way, with the same mapping and output. *)
Theorem surrounding_slashes_are_ignored (w : world) (owner repo branch pat : string)
    (fuel : nat) (path : string) :
  get_github_code_files w owner repo branch pat fuel ("/" ++ path) =
    get_github_code_files w owner repo branch pat fuel path ∧
  get_github_code_files w owner repo branch pat fuel (path ++ "/") =
    get_github_code_files w owner repo branch pat fuel path.
Proof.
  unfold get_github_code_files, initial. split.
  - change ("/" ++ path) with (String "/" path). by rewrite strip_cons.
  - by rewrite strip_snoc.
Qed.

(** X2.  The path that seeds the queue neither begins nor ends with ['/'],
    and stripping it again gives the same path. *)
Theorem seed_has_no_slash_at_either_end (path : string) :
  queue (initial path) = [strip "/" path] ∧
  (∀ t, strip "/" path ≠ String "/" t) ∧
  (∀ t, strip "/" path ≠ t ++ "/") ∧
  strip "/" (strip "/" path) = strip "/" path.
Proof.
  split; [done|]. split; [intros t; apply strip_head|].
  split; [intros t; apply strip_tail|apply strip_idemp].
Qed.

(** ** What one entry does, case by case *)

Lemma a2b_base64_raises (ascii_data : list Z) (quad_pos leftchar pads : Z)
    (bin_data : list Z) (e : exn) :
  a2b_base64 ascii_data quad_pos leftchar pads bin_data = Exc e → e = BinasciiError.
Proof.
  revert quad_pos leftchar pads bin_data.
  induction ascii_data as [|this_ch rest IH]; intros quad_pos leftchar pads bin_data; simpl.
  - destruct (quad_pos =? 0)%Z; [done|]. by intros [= <-].
  - destruct (this_ch =? 61)%Z.
    { destruct (2 <=? quad_pos)%Z; [|apply IH].
      destruct (4 <=? quad_pos + (pads + 1))%Z; [done|apply IH]. }
    destruct (b64_value this_ch) as [v|]; [|apply IH].
    destruct (quad_pos =? 0)%Z; [apply IH|].
    destruct (quad_pos =? 1)%Z; [apply IH|].
    destruct (quad_pos =? 2)%Z; apply IH.
Qed.

Lemma b64decode_raises (c : jval) (e : exn) :
  b64decode c = Exc e → e = BinasciiError ∨ e = ValueError ∨ e = TypeError.
Proof.
  unfold b64decode. destruct c as [| | |s| |]; try (intros [= <-]; by auto).
  destruct (forallb _ _).
  - intros ->%a2b_base64_raises. by left.
  - intros [= <-]. by auto.
Qed.

Ltac warned := eexists; split; [|reflexivity]; reflexivity.

Section Effects.
Variable w : world.
Variables owner repo branch pat : string.
Local Open Scope list_scope.

Local Abbreviation download_text' := (download_text w pat).
Local Abbreviation retrieve' := (retrieve w pat).
Local Abbreviation list_dir' := (list_dir w owner repo branch pat).
Local Abbreviation process_item' := (process_item w pat).
Local Abbreviation iteration' := (iteration w owner repo branch pat).
Local Abbreviation while_queue' := (while_queue w owner repo branch pat).
Local Abbreviation get_github_code_files' :=
  (get_github_code_files w owner repo branch pat).
Local Abbreviation reaches' := (reaches w owner repo branch pat).
Local Abbreviation reported' := (reported w owner repo branch pat).
Local Abbreviation listed' := (listed w owner repo branch pat).

(** The inline tier, when there is no non-empty download URL: the content
    is stored, or one warning is printed, or the statement raises. *)
Lemma inline_or_skip_cases (item : entry) (s : state) :
  has_download_url item = false →
  (∃ t, retrieve' item = Some t ∧
        inline_or_skip item s =
          (Val tt, State (<[e_path item := t]> (code_files s)) (queue s) (stdout s))) ∨
  (retrieve' item = None ∧
   ((∃ msg, is_diagnostic msg = false ∧
            inline_or_skip item s =
              (Val tt, State (code_files s) (queue s) (stdout s ++ [msg]))) ∨
    (∃ e, (e = KeyError "encoding" ∨ e = ValueError ∨ e = TypeError) ∧
          inline_or_skip item s = (Exc e, s)))).
Proof.
  intros Hno.
  assert (retrieve' item =
            if has_inline_base64 item then e_content item ≫= inline_text else None)
    as ->.
  { unfold retrieve, has_download_url in *.
    destruct (e_download_url item) as [u|]; [by rewrite Hno|done]. }
  unfold has_inline_base64, inline_or_skip, decode_inline, inline_text.
  unfold_monad.
  destruct (e_content item) as [c|]; simpl;
    [|right; split; [done|left; warned]].
  destruct (truthy c) eqn:Hc; simpl;
    [|destruct (e_encoding item); right; (split; [done|left; warned])].
  destruct (e_encoding item) as [e|]; simpl;
    [|right; split; [done|right; eexists; split; [by left|done]]].
  destruct (eq_str e "base64"); simpl; [|right; split; [done|left; warned]].
  destruct (b64decode c) as [raw|e'] eqn:Hb64; simpl.
  - unfold decode_utf8. destruct (utf8_check [] raw); simpl.
    + left. by eexists.
    + right. split; [done|left; warned].
  - right. split; [done|].
    destruct (b64decode_raises _ _ Hb64) as [-> | [-> | ->]].
    + left. warned.
    + right. eexists. split; [|reflexivity]. by auto.
    + right. eexists. split; [|reflexivity]. by auto.
Qed.

(** The body of the [for] loop does one of five things. *)
Lemma process_item_cases (item : entry) (s : state) :
  (e_type item = "file" ∧ ∃ t, retrieve' item = Some t ∧
     process_item' item s =
       (Val tt, State (<[e_path item := t]> (code_files s)) (queue s) (stdout s))) ∨
  (e_type item = "file" ∧ retrieve' item = None ∧
     ∃ msg, is_diagnostic msg = false ∧
       process_item' item s =
         (Val tt, State (code_files s) (queue s) (stdout s ++ [msg]))) ∨
  (e_type item = "file" ∧ retrieve' item = None ∧
     ∃ e, (e = KeyError "encoding" ∨ e = ValueError ∨ e = TypeError) ∧
       process_item' item s = (Exc e, s)) ∨
  (e_type item = "dir" ∧
     process_item' item s =
       (Val tt, State (code_files s) (queue s ++ [e_path item]) (stdout s))) ∨
  (e_type item ≠ "file" ∧ e_type item ≠ "dir" ∧ process_item' item s = (Val tt, s)).
Proof.
  destruct (decide (e_type item = "file")) as [Hf|Hf].
  - assert (has_download_url item = false →
      (e_type item = "file" ∧ ∃ t, retrieve' item = Some t ∧
         inline_or_skip item s =
           (Val tt, State (<[e_path item := t]> (code_files s)) (queue s) (stdout s))) ∨
      (e_type item = "file" ∧ retrieve' item = None ∧
         ∃ msg, is_diagnostic msg = false ∧
           inline_or_skip item s =
             (Val tt, State (code_files s) (queue s) (stdout s ++ [msg]))) ∨
      (e_type item = "file" ∧ retrieve' item = None ∧
         ∃ e, (e = KeyError "encoding" ∨ e = ValueError ∨ e = TypeError) ∧
           inline_or_skip item s = (Exc e, s)) ∨
      (e_type item = "dir" ∧
         inline_or_skip item s =
           (Val tt, State (code_files s) (queue s ++ [e_path item]) (stdout s))) ∨
      (e_type item ≠ "file" ∧ e_type item ≠ "dir" ∧
         inline_or_skip item s = (Val tt, s))) as Hinline.
    { intros Hno.
      destruct (inline_or_skip_cases item s Hno) as [Hst|[Hnone [Hw|He]]].
      - left. by split.
      - right. left. by split.
      - right. right. left. by split. }
    assert (process_item' item s =
              match e_download_url item with
              | Some u => if truthy u then download_file w pat (e_path item) u s
                          else inline_or_skip item s
              | None => inline_or_skip item s
              end) as ->.
    { unfold process_item. rewrite Hf. simpl.
      destruct (e_download_url item) as [u|]; [|done]. by destruct (truthy u). }
    unfold has_download_url in Hinline.
    destruct (e_download_url item) as [u|] eqn:Hu; [|by apply Hinline].
    destruct (truthy u) eqn:Htu; [|by apply Hinline].
    rewrite download_file_eq.
    destruct (download_text' u) as [t|] eqn:Hd.
    + left. split; [done|]. exists t. split; [|done].
      unfold retrieve. by rewrite Hu, Htu.
    + right. left. split; [done|]. split; [unfold retrieve; by rewrite Hu, Htu|].
      warned.
  - destruct (decide (e_type item = "dir")) as [Hd|Hd].
    + do 3 right. left. split; [done|]. by apply process_item_dir.
    + do 4 right. split; [done|]. split; [done|]. by apply process_item_other.
Qed.

(** What the body leaves behind, whatever way it ends. *)
Lemma process_item_effect (item : entry) (s s' : state) (r : result unit) :
  process_item' item s = (r, s') →
  (r = Val tt → queue s' = queue s ++ subdirs [item]) ∧
  (∀ k v, code_files s' !! k = Some v →
          code_files s !! k = Some v ∨
          (e_type item = "file" ∧ e_path item = k ∧ retrieve' item = Some v)) ∧
  dom (code_files s) ⊆ dom (code_files s') ∧
  (∃ extra, stdout s' = stdout s ++ extra ∧
            Forall (λ msg, is_diagnostic msg = false) extra) ∧
  (∀ e, r = Exc e → e = KeyError "encoding" ∨ e = ValueError ∨ e = TypeError).
Proof.
  assert (∀ out : list message, ∃ extra,
            out = out ++ extra ∧ Forall (λ msg, is_diagnostic msg = false) extra)
    as Hquiet by (intros out; exists []; by rewrite app_nil_r).
  unfold subdirs.
  destruct (process_item_cases item s)
    as [(Hf & t & Ht & ->)|[(Hf & Hnone & msg & Hmsg & ->)|[(Hf & Hnone & e & He & ->)
       |[(Hd & ->)|(Hf & Hd & ->)]]]];
    intros [= <- <-]; simpl.
  - rewrite filter_cons_False, app_nil_r by by rewrite Hf.
    split; [done|]. split; [|split; [|split; [apply Hquiet|done]]].
    + intros k v. rewrite lookup_insert. case_decide as Hk.
      * intros [= <-]. by right.
      * by left.
    + rewrite dom_insert. set_solver.
  - rewrite filter_cons_False, app_nil_r by by rewrite Hf.
    split; [done|]. split; [by left|]. split; [done|]. split; [|done].
    exists [msg]. split; [done|]. by constructor.
  - split; [done|]. split; [by left|]. split; [done|]. split; [apply Hquiet|].
    by intros e' [= <-].
  - rewrite filter_cons_True by done.
    split; [done|]. split; [by left|]. split; [done|]. split; [apply Hquiet|done].
  - rewrite filter_cons_False, app_nil_r by done.
    split; [done|]. split; [by left|]. split; [done|]. split; [apply Hquiet|done].
Qed.

Lemma for_each_effect (items : list entry) (s s' : state) (r : result unit) :
  for_each items process_item' s = (r, s') →
  (r = Val tt → queue s' = queue s ++ subdirs items) ∧
  (∀ k v, code_files s' !! k = Some v →
          code_files s !! k = Some v ∨
          ∃ it, it ∈ items ∧ e_type it = "file" ∧ e_path it = k ∧
                retrieve' it = Some v) ∧
  dom (code_files s) ⊆ dom (code_files s') ∧
  (∃ extra, stdout s' = stdout s ++ extra ∧
            Forall (λ msg, is_diagnostic msg = false) extra) ∧
  (∀ e, r = Exc e → e = KeyError "encoding" ∨ e = ValueError ∨ e = TypeError).
Proof.
  revert s. induction items as [|it items IH]; intros s; simpl.
  - unfold_monad. intros [= <- <-]. split; [by rewrite app_nil_r|].
    split; [by left|]. split; [done|]. split; [|done].
    exists []. by rewrite app_nil_r.
  - unfold mbind, M_bind.
    destruct (process_item' it s) as [[[]|e] s1] eqn:Hit;
      apply process_item_effect in Hit as (Hq1 & Hv1 & Hd1 & (ex1 & Hout1 & Hex1) & He1).
    + intros (Hq & Hv & Hd & (ex & Hout & Hex) & He)%IH.
      split; [|split; [|split; [|split]]].
      * intros Hr. rewrite (Hq Hr), (Hq1 eq_refl).
        unfold subdirs. rewrite <- app_assoc, <- fmap_app. f_equal.
        by rewrite <- filter_app.
      * intros k v [Hold|(it' & ? & ?)]%Hv.
        -- apply Hv1 in Hold as [?|(? & ? & ?)]; [by left|].
           right. exists it. split; [by left|done].
        -- right. exists it'. split; [by right|done].
      * by etrans.
      * exists (ex1 ++ ex). split; [by rewrite Hout, Hout1, app_assoc|].
        by apply Forall_app.
      * done.
    + intros [= <- <-]. split; [done|]. split; [|split; [done|split]].
      * intros k v [?|(? & ? & ?)]%Hv1; [by left|].
        right. exists it. split; [by left|done].
      * by exists ex1.
      * done.
Qed.

(** One pass ends in one of three ways: it falls through after a [for]
    loop that completed; it prints a diagnostic and returns the empty
    mapping; it raises [KeyError('encoding')] or [TypeError]. *)
Lemma iteration_cases (p : string) (s s' : state)
    (r : result (option (gmap string string))) :
  iteration' p s = (r, s') →
  (r = Val None ∧
   ∃ items, list_dir' p = Some items ∧
            for_each items process_item' s = (Val tt, s')) ∨
  (r = Val (Some ∅) ∧
   ∃ extra msg, stdout s' = stdout s ++ extra ++ [msg] ∧
                Forall (λ msg, is_diagnostic msg = false) extra ∧
                is_diagnostic msg = true) ∨
  (∃ e, (e = KeyError "encoding" ∨ e = TypeError) ∧ r = Exc e ∧
   ∃ extra, stdout s' = stdout s ++ extra ∧
            Forall (λ msg, is_diagnostic msg = false) extra).
Proof.
  destruct (list_dir' p) as [items|] eqn:Hl.
  - rewrite (iteration_listed _ _ _ _ _ _ items) by done.
    destruct (for_each items process_item' s) as [[[]|e] s1] eqn:Hfor.
    + intros [= <- <-]. left. split; [done|]. by exists items.
    + apply for_each_effect in Hfor as (_ & _ & _ & (extra & Hout & Hextra) & He).
      destruct (He e eq_refl) as [-> | [-> | ->]]; simpl.
      * intros [= <- <-]. right. right. exists (KeyError "encoding").
        split; [by left|]. split; [done|]. by exists extra.
      * unfold_monad. intros [= <- <-]. right. left. split; [done|].
        exists extra, (ErrJSON p). simpl. by rewrite Hout, <- app_assoc.
      * intros [= <- <-]. right. right. exists TypeError.
        split; [by right|]. split; [done|]. by exists extra.
  - unfold list_dir in Hl. rewrite listing_request_eq in Hl.
    unfold iteration, on_error, session_get, raise_for_status, response_json in *.
    unfold_monad.
    assert (∀ msg, is_diagnostic msg = true →
              ∃ extra msg', stdout s ++ [msg] = stdout s ++ extra ++ [msg'] ∧
                Forall (λ msg, is_diagnostic msg = false) extra ∧
                is_diagnostic msg' = true) as Hlast.
    { intros msg Hmsg. by exists [], msg. }
    destruct (w _) as [|resp]; simpl.
    { intros [= <- <-]. right. left. split; [done|]. by apply Hlast. }
    destruct ((400 <=? status_code resp) && (status_code resp <? 600))%Z; simpl.
    + destruct (status_code resp =? 404)%Z;
        [intros [= <- <-]; right; left; split; [done|]; by apply Hlast|].
      destruct ((status_code resp =? 401) || (status_code resp =? 403))%Z;
        intros [= <- <-]; right; left; (split; [done|]); by apply Hlast.
    + destruct (json resp); [done|]. simpl.
      intros [= <- <-]. right. left. split; [done|]. by apply Hlast.
Qed.

(** *** How a run ends *)

(** From a state whose output holds no diagnostic, the loop ends in one of
    three ways: the queue is drained and the mapping of the last state is
    returned; a diagnostic is printed last and the empty mapping is
    returned; [KeyError('encoding')] or [TypeError] is raised. *)
Lemma while_queue_ends (s0 : state) (fuel : nat) (s : state) (o : outcome)
    (out : list message) :
  reaches' s0 s →
  Forall (λ msg, is_diagnostic msg = false) (stdout s) →
  while_queue' fuel s = Some (o, out) →
  (∃ s', reaches' s0 s' ∧ queue s' = [] ∧ o = Returned (code_files s') ∧
         out = stdout s' ∧ Forall (λ msg, is_diagnostic msg = false) out) ∨
  (o = Returned ∅ ∧
   ∃ out' msg, out = out' ++ [msg] ∧
               Forall (λ msg, is_diagnostic msg = false) out' ∧
               is_diagnostic msg = true) ∨
  (∃ e, (e = KeyError "encoding" ∨ e = TypeError) ∧ o = Raised e ∧
        Forall (λ msg, is_diagnostic msg = false) out).
Proof.
  revert s. induction fuel as [|fuel IH]; intros s Hreach Hquiet.
  - simpl. destruct (queue s) eqn:Hq; [|done]. intros [= <- <-]. left. by exists s.
  - destruct (queue s) as [|p rest] eqn:Hq.
    { rewrite while_queue_nil by done. intros [= <- <-]. left. by exists s. }
    rewrite (while_queue_cons _ _ _ _ _ _ _ _ _ Hq).
    destruct (iteration' p _) as [r s'] eqn:Hit.
    destruct (iteration_cases _ _ _ _ Hit)
      as [(-> & items & Hl & Hfor)|[(-> & extra & msg & Hout & Hextra & Hmsg)
         |(e & He & -> & extra & Hout & Hextra)]]; simpl in *.
    + apply IH.
      * by eapply reaches_pass.
      * apply for_each_effect in Hfor as (_ & _ & _ & (extra & -> & Hextra) & _).
        by apply Forall_app.
    + intros [= <- <-]. right. left. split; [done|].
      exists (stdout s ++ extra), msg. rewrite Hout, app_assoc.
      split; [done|]. split; [by apply Forall_app|done].
    + intros [= <- <-]. right. right. exists e. split; [done|]. split; [done|].
      rewrite Hout. by apply Forall_app.
Qed.


(** X4.  A returned mapping comes with an output that tells how the run
    ended.  Either no diagnostic was printed, and the queue was drained; or
    the last line printed is a diagnostic, the only one, and the mapping is
    empty.  An empty mapping from an empty repository is thus told apart
    from one that follows a failure. *)
Theorem diagnostic_marks_an_abort (fuel : nat) (path : string)
    (d : gmap string string) (out : list message) :
  get_github_code_files' fuel path = Some (Returned d, out) →
  (Forall (λ msg, is_diagnostic msg = false) out ∧
   ∃ s, reaches' (initial path) s ∧ queue s = [] ∧ d = code_files s) ∨
  (d = ∅ ∧
   ∃ out' msg, out = out' ++ [msg] ∧
               Forall (λ msg, is_diagnostic msg = false) out' ∧
               is_diagnostic msg = true).
Proof.
  intros Hrun.
  destruct (while_queue_ends (initial path) fuel (initial path) _ _
              (reaches_start _ _ _ _ _ _) (Forall_nil_2 _) Hrun)
    as [(s' & Hreach & Hq & [= ->] & _ & Hout)|[([= ->] & Hout)|(e & _ & [=] & _)]].
  - left. split; [done|]. by exists s'.
  - by right.
Qed.

(** *** What the mapping holds *)

Lemma values_reaches (path : string) (s : state) :
  reaches' (initial path) s →
  ∀ k v, code_files s !! k = Some v →
    ∃ p items it,
      listed' (strip "/" path) p ∧ list_dir' p = Some items ∧ it ∈ items ∧
      e_type it = "file" ∧ e_path it = k ∧ retrieve' it = Some v.
Proof.
  induction 1 as [|s p rest s' Hreach IH Hq Hit]; intros k v Hk; [done|].
  destruct (iteration_cases _ _ _ _ Hit)
    as [(_ & items & Hl & Hfor)|[([=] & _)|(? & _ & [=] & _)]].
  apply for_each_effect in Hfor as (_ & Hv & _). simpl in Hv.
  destruct (Hv k v Hk) as [Hold|(it & Hin & Hf & Hp & Hret)]; [by apply IH|].
  exists p, items, it. split; [|done].
  destruct (provenance_reaches w owner repo branch pat path s Hreach) as [Hprov _].
  destruct (Hprov p) as [->|?]; [rewrite Hq; by left|constructor|].
  by apply reported_dir_listed.
Qed.

(** X5.  Every value of a returned mapping is the content the two-tier
    retrieval gives for a file entry with that key, reported by the
    listing of a path listed from the starting path. *)
Theorem values_are_retrieved_contents (fuel : nat) (path : string)
    (d : gmap string string) (out : list message) (k v : string) :
  get_github_code_files' fuel path = Some (Returned d, out) →
  d !! k = Some v →
  ∃ p items it,
    listed' (strip "/" path) p ∧ list_dir' p = Some items ∧ it ∈ items ∧
    e_type it = "file" ∧ e_path it = k ∧ retrieve' it = Some v.
Proof.
  intros Hrun Hk.
  destruct (returned_from_reached w owner repo branch pat fuel (initial path)
              (initial path) d out (reaches_start _ _ _ _ _ _) Hrun)
    as [->|(s & Hreach & ->)]; [done|].
  by apply (values_reaches path s).
Qed.

(** X6.  A pass that falls through had a listing, and leaves the queue as
    it found it with the paths of the listing's directory entries appended
    in the order of the listing, whether or not files of the listing were
    skipped. *)
Theorem pass_appends_directories_in_order (p : string) (s s' : state) :
  iteration' p s = (Val None, s') →
  ∃ items, list_dir' p = Some items ∧ queue s' = queue s ++ subdirs items.
Proof.
  intros Hit.
  destruct (iteration_cases _ _ _ _ Hit)
    as [(_ & items & Hl & Hfor)|[([=] & _)|(? & _ & [=] & _)]].
  exists items. split; [done|].
  by apply for_each_effect in Hfor as (-> & _).
Qed.

(** X7.  While the loop runs no key leaves the mapping, nothing printed is
    lost, and what is printed is warnings about single files. *)
Theorem keys_and_output_only_grow (s0 s : state) :
  reaches' s0 s →
  dom (code_files s0) ⊆ dom (code_files s) ∧
  ∃ extra, stdout s = stdout s0 ++ extra ∧
           Forall (λ msg, is_diagnostic msg = false) extra.
Proof.
  induction 1 as [|s p rest s' _ (Hdom & extra & Hout & Hextra) Hq Hit].
  - split; [done|]. exists []. by rewrite app_nil_r.
  - destruct (iteration_cases _ _ _ _ Hit)
      as [(_ & items & Hl & Hfor)|[([=] & _)|(? & _ & [=] & _)]].
    apply for_each_effect in Hfor as (_ & _ & Hdom' & (extra' & Hout' & Hextra') & _).
    simpl in *. split; [by etrans|].
    exists (extra ++ extra'). split; [by rewrite Hout', Hout, app_assoc|].
    by apply Forall_app.
Qed.

(** X8.  The diagnostic names the failure.  With [p] at the front of the
    queue: when [session.get] raises for the listing request the function
    prints the connection error; when the answer has a 4xx or 5xx status it
    prints the not-found error with the repository and the path for 404,
    the authentication error for 401 and 403, and the fetch error with the
    path otherwise.  Each time it returns the empty mapping. *)
Theorem diagnostic_names_the_failure (path : string) (s : state) (p : string)
    (rest : list string) :
  reaches' (initial path) s →
  queue s = p :: rest →
  (w (Request (contents_url owner repo branch p) (listing_headers pat)) = GetRaises →
   ∃ n, ∀ fuel, n ≤ fuel →
     get_github_code_files' fuel path = Some (Returned ∅, stdout s ++ [ErrConnect])) ∧
  (∀ r,
     w (Request (contents_url owner repo branch p) (listing_headers pat)) = GetReturns r →
     (400 ≤ status_code r < 600)%Z →
     ∃ n msg,
       (∀ fuel, n ≤ fuel →
          get_github_code_files' fuel path = Some (Returned ∅, stdout s ++ [msg])) ∧
       (status_code r = 404%Z → msg = ErrNotFound owner repo p 404) ∧
       (status_code r = 401%Z ∨ status_code r = 403%Z → msg = ErrAuth (status_code r)) ∧
       (status_code r ≠ 404%Z → status_code r ≠ 401%Z → status_code r ≠ 403%Z →
        msg = ErrFetch p (status_code r))).
Proof.
  intros Hreach Hq. split.
  - intros Hw.
    destruct (reaches_run w owner repo branch pat _ s 1
                (Returned ∅, stdout s ++ [ErrConnect]) Hreach) as [n Hn]; [|by exists n].
    rewrite (while_queue_cons _ _ _ _ _ _ _ _ _ Hq).
    unfold iteration, session_get, try_except, mbind, M_bind. by rewrite Hw.
  - intros r Hw Hst.
    set (msg := if (status_code r =? 404)%Z then ErrNotFound owner repo p (status_code r)
                else if ((status_code r =? 401) || (status_code r =? 403))%Z
                then ErrAuth (status_code r) else ErrFetch p (status_code r)).
    destruct (reaches_run w owner repo branch pat _ s 1
                (Returned ∅, stdout s ++ [msg]) Hreach) as [n Hn].
    { rewrite (while_queue_cons _ _ _ _ _ _ _ _ _ Hq).
      unfold iteration, session_get, raise_for_status, try_except, mbind, M_bind.
      rewrite Hw.
      assert ((400 <=? status_code r) && (status_code r <? 600) = true)%Z as ->
        by (apply andb_true_iff; lia).
      unfold raise, on_error, msg. unfold_monad.
      destruct (status_code r =? 404)%Z; [done|].
      by destruct ((status_code r =? 401) || (status_code r =? 403))%Z. }
    exists n, msg. split; [done|]. unfold msg. split; [|split].
    + intros ->. done.
    + intros [-> | ->]; done.
    + intros H1 H2 H3.
      apply Z.eqb_neq in H1, H2, H3. by rewrite H1, H2, H3.
Qed.

End Effects.

(** ** A tree without end *)

Section Endless.
Variable w : world.
Variables owner repo branch pat : string.
Variable C : string → Prop.

(** [C] is a set of paths each of which lists, without a file that fails,
    at least one directory, and only directories of [C]. *)
Hypothesis closed :
  ∀ p, C p →
    ∃ items,
      list_dir w owner repo branch pat p = Some items ∧
      (∀ it, it ∈ items → e_type it = "file" → is_Some (retrieve w pat it)) ∧
      subdirs items ≠ [] ∧
      (∀ q, q ∈ subdirs items → C q).

Lemma endless_queue (fuel : nat) (s : state) :
  queue s ≠ [] →
  Forall C (queue s) →
  while_queue w owner repo branch pat fuel s = None.
Proof.
  revert s. induction fuel as [|fuel IH]; intros s Hne Hall.
  - simpl. by destruct (queue s).
  - destruct (queue s) as [|p rest] eqn:Hq; [done|].
    apply Forall_cons in Hall as [Hp Hrest].
    destruct (closed p Hp) as (items & Hl & Hfiles & Hsub & Hnext).
    rewrite (while_queue_cons _ _ _ _ _ _ _ _ _ Hq).
    rewrite (iteration_success _ _ _ _ _ _ items _ _ Hl
               (for_each_retrievable _ _ _ _ Hfiles)).
    apply IH; simpl.
    + intros [_ ?]%app_eq_nil. done.
    + apply Forall_app. split; [done|]. by apply Forall_forall.
Qed.

(** X9.  The loop keeps no record of the paths it has listed.  When the
    starting path lies in a set of paths closed under listing, each with a
    directory in its listing (a directory that lists itself, say), the
    function does not return: no amount of fuel is enough. *)
Theorem endless_tree_never_returns (path : string) :
  C (strip "/" path) →
  ∀ fuel, get_github_code_files w owner repo branch pat fuel path = None.
Proof.
  intros Hstart fuel. apply endless_queue; simpl; [done|]. by constructor.
Qed.

End Endless.

(** ** Calls of [session.get] and the token *)

Section Authenticated.
Variables w1 w2 : world.
Variables owner repo branch pat : string.

(** In the two worlds a call of [session.get] with the token in its
    [headers] argument does the same. *)
Hypothesis same_when_authenticated :
  ∀ req, ("Authorization", "token " ++ pat) ∈ headers req → w1 req = w2 req.

Lemma session_get_listing_same (u : string) (s : state) :
  session_get w1 (JStr u) (listing_headers pat) s =
  session_get w2 (JStr u) (listing_headers pat) s.
Proof.
  unfold session_get. rewrite same_when_authenticated; [done|]. by left.
Qed.

Lemma session_get_download_same (u : jval) (s : state) :
  session_get w1 u (download_headers pat) s =
  session_get w2 u (download_headers pat) s.
Proof.
  unfold session_get. destruct u; try done.
  rewrite same_when_authenticated; [done|]. by left.
Qed.

Lemma process_item_authenticated (item : entry) (s : state) :
  process_item w1 pat item s = process_item w2 pat item s.
Proof.
  unfold process_item.
  destruct (String.eqb (e_type item) "file"); [|done].
  destruct (e_download_url item) as [u|]; [|done].
  destruct (truthy u); [|done].
  unfold download_file, try_except, mbind, M_bind.
  by rewrite session_get_download_same.
Qed.

Lemma for_each_authenticated (items : list entry) (s : state) :
  for_each items (process_item w1 pat) s = for_each items (process_item w2 pat) s.
Proof.
  revert s. induction items as [|it items IH]; intros s; simpl; [done|].
  unfold mbind, M_bind. rewrite process_item_authenticated.
  destruct (process_item w2 pat it s) as [[[]|e] s1]; [apply IH|done].
Qed.

Lemma iteration_authenticated (p : string) (s : state) :
  iteration w1 owner repo branch pat p s = iteration w2 owner repo branch pat p s.
Proof.
  unfold iteration, try_except, mbind, M_bind. rewrite session_get_listing_same.
  destruct (session_get w2 _ _ s) as [[r|e] s1]; [|done].
  destruct (raise_for_status r s1) as [[[]|e] s2]; [|done].
  destruct (response_json r s2) as [[l|e] s3]; [|done].
  by rewrite for_each_authenticated.
Qed.

(** X10.  Every call of [session.get] the function makes, for a listing
    or for a download, passes the entry [Authorization: token <pat>] in its
    [headers] argument: what a call without it would do has no bearing on
    the run.  Two worlds that differ only on such calls give the same
    outcome, mapping and output.  (What the library puts on the wire for a
    call is outside the embedding.) *)
Theorem every_call_passes_the_token (path : string) (fuel : nat) :
  get_github_code_files w1 owner repo branch pat fuel path =
  get_github_code_files w2 owner repo branch pat fuel path.
Proof.
  unfold get_github_code_files. generalize (initial path).
  induction fuel as [|fuel IH]; intros s; simpl; [done|].
  destruct (queue s) as [|p rest]; [done|].
  rewrite iteration_authenticated.
  destruct (iteration w2 _ _ _ _ p _) as [[[d|]|e] s']; [done|apply IH|done].
Qed.

End Authenticated.

(** ** Listings with duplicates and with other entries *)

Section Listings.
Variable w : world.
Variable pat : string.
Local Open Scope list_scope.

Lemma for_each_keeps (items : list entry) (s s' : state) (r : result unit)
    (k v : string) :
  for_each items (process_item w pat) s = (r, s') →
  (∀ it, it ∈ items → e_type it = "file" → e_path it ≠ k) →
  code_files s !! k = Some v →
  code_files s' !! k = Some v.
Proof.
  intros Hfor Hother Hk.
  apply (for_each_effect w pat) in Hfor as (_ & Hv & Hdom & _).
  assert (k ∈ dom (code_files s')) as [v' Hk']%elem_of_dom
    by (apply Hdom, elem_of_dom; by eexists).
  destruct (Hv k v' Hk') as [?|(it & Hin & Hf & Hp & _)]; [by simplify_eq|].
  by destruct (Hother it Hin Hf).
Qed.

(** X11.  A path reported twice: storing overwrites.  When the [for] loop
    completes on a listing, the value under the path of a retrieved file
    entry is the content of that entry, whatever was stored under the path
    before, unless a later file entry of the listing has the same path. *)
Theorem later_entry_overwrites (pre post : list entry) (it : entry) (t : string)
    (s s' : state) :
  for_each (pre ++ it :: post) (process_item w pat) s = (Val tt, s') →
  e_type it = "file" →
  retrieve w pat it = Some t →
  (∀ it', it' ∈ post → e_type it' = "file" → e_path it' ≠ e_path it) →
  code_files s' !! e_path it = Some t.
Proof.
  rewrite for_each_app. intros Hfor Hf Hret Hpost.
  destruct (for_each pre _ s) as [[[]|e] s1]; [|done].
  simpl in Hfor. unfold mbind, M_bind in Hfor.
  rewrite (process_item_file _ _ _ t) in Hfor by done.
  eapply for_each_keeps; [done..|]. simpl. by rewrite lookup_insert_eq.
Qed.

(** The [for] loop does on a listing what it does on the listing without
    the entries that are neither files nor directories. *)
Lemma for_each_files_and_dirs (items : list entry) (s : state) :
  for_each items (process_item w pat) s =
  for_each (filter (λ it, e_type it = "file" ∨ e_type it = "dir") items)
    (process_item w pat) s.
Proof.
  revert s. induction items as [|it items IH]; intros s; [done|].
  destruct (decide (e_type it = "file" ∨ e_type it = "dir")) as [Hty|Hty].
  - rewrite filter_cons_True by done. simpl. unfold mbind, M_bind.
    destruct (process_item w pat it s) as [[[]|e] s1]; [apply IH|done].
  - rewrite filter_cons_False by done. simpl. unfold mbind, M_bind.
    rewrite process_item_other by (intros ?; apply Hty; by auto).
    apply IH.
Qed.

Lemma process_item_without_others (item : entry) (s : state) :
  process_item (without_others w) pat item s = process_item w pat item s.
Proof.
  unfold process_item.
  destruct (String.eqb (e_type item) "file"); [|done].
  destruct (e_download_url item) as [u|]; [|done].
  destruct (truthy u); [|done].
  rewrite !download_file_eq.
  assert (download_text (without_others w) pat u = download_text w pat u) as ->; [|done].
  unfold download_text, without_others. destruct u as [| | |u| |]; try done.
  by destruct (w _).
Qed.

Lemma for_each_without_others (items : list entry) (s : state) :
  for_each items (process_item (without_others w) pat) s =
  for_each items (process_item w pat) s.
Proof.
  revert s. induction items as [|it items IH]; intros s; simpl; [done|].
  unfold mbind, M_bind. rewrite process_item_without_others.
  destruct (process_item w pat it s) as [[[]|e] s1]; [apply IH|done].
Qed.

End Listings.

(** X12.  Entries that are neither files nor directories (symlinks,
    submodules) are passed over: with such entries dropped from every
    listing the server sends, the function ends the same way, with the
    same mapping and output. *)
Theorem other_types_are_passed_over (w : world) (owner repo branch pat : string)
    (fuel : nat) (path : string) :
  get_github_code_files (without_others w) owner repo branch pat fuel path =
  get_github_code_files w owner repo branch pat fuel path.
Proof.
  unfold get_github_code_files. generalize (initial path).
  induction fuel as [|fuel IH]; intros s; simpl; [done|].
  destruct (queue s) as [|p rest]; [done|].
  assert (∀ s0, iteration (without_others w) owner repo branch pat p s0 =
                iteration w owner repo branch pat p s0) as ->.
  { intros s0. unfold iteration, try_except, mbind, M_bind, session_get, without_others.
    destruct (w _) as [|r]; [done|].
    unfold raise_for_status, response_json. simpl.
    destruct ((400 <=? status_code r) && (status_code r <? 600))%Z; [done|].
    unfold_monad. destruct (json r) as [l|]; [|done]. simpl.
    fold (without_others w).
    by rewrite for_each_without_others, <- for_each_files_and_dirs. }
  destruct (iteration w _ _ _ _ p _) as [[[d|]|e] s']; [done|apply IH|done].
Qed.

(** ** The further properties on the example repositories *)


(** X4 on the broken subtree: the mapping is empty and the last line is the
    diagnostic. *)
Lemma broken_subtree_output_marks_the_abort :
  (Forall (λ msg, is_diagnostic msg = false) [ErrNotFound "octocat" "benz" "sub" 404] ∧
   ∃ s, reaches broken_subtree "octocat" "benz" "main" "tok" (initial "") s ∧
        queue s = [] ∧ (∅ : gmap string string) = code_files s) ∨
  ((∅ : gmap string string) = ∅ ∧
   ∃ out' msg, [ErrNotFound "octocat" "benz" "sub" 404] = (out' ++ [msg])%list ∧
               Forall (λ msg, is_diagnostic msg = false) out' ∧
               is_diagnostic msg = true).
Proof.
  exact (diagnostic_marks_an_abort broken_subtree "octocat" "benz" "main" "tok" 2 ""
           ∅ [ErrNotFound "octocat" "benz" "sub" 404] eq_refl).
Defined.

(** X5 on the small tree, for the key [a.txt]. *)
Lemma small_tree_value_of_a_txt :
  ∃ p items it,
    listed small_tree "octocat" "benz" "main" "tok" "" p ∧
    list_dir small_tree "octocat" "benz" "main" "tok" p = Some items ∧ it ∈ items ∧
    e_type it = "file" ∧ e_path it = "a.txt" ∧ retrieve small_tree "tok" it = Some "hello".
Proof.
  exact (values_are_retrieved_contents small_tree "octocat" "benz" "main" "tok" 2 ""
           {["a.txt" := "hello"; "sub/b.txt" := "world"]} [] "a.txt" "hello"
           eq_refl eq_refl).
Defined.

(** X6 on the pass on the root of the small tree. *)
Lemma small_tree_root_pass :
  ∃ items,
    list_dir small_tree "octocat" "benz" "main" "tok" "" = Some items ∧
    ["sub"] = ([] ++ subdirs items)%list.
Proof.
  exact (pass_appends_directories_in_order small_tree "octocat" "benz" "main" "tok" ""
           (State ∅ [] []) (State {["a.txt" := "hello"]} ["sub"] []) eq_refl).
Defined.

(** X7 on the broken subtree, after the pass on the root. *)
Lemma broken_subtree_grows :
  dom (∅ : gmap string string) ⊆ dom ({["a.txt" := "hello"]} : gmap string string) ∧
  ∃ extra, ([] : list message) = ([] ++ extra)%list ∧
           Forall (λ msg, is_diagnostic msg = false) extra.
Proof.
  exact (keys_and_output_only_grow broken_subtree "octocat" "benz" "main" "tok"
           (initial "") (State {["a.txt" := "hello"]} ["sub"] [])
           broken_subtree_after_root).
Defined.

(** X8 on the broken subtree: the 404 on [sub] is reported as not found,
    with the repository and the path. *)
Lemma broken_subtree_diagnostic :
  ∃ n msg,
    (∀ fuel, n ≤ fuel →
       get_github_code_files broken_subtree "octocat" "benz" "main" "tok" fuel ""
         = Some (Returned ∅, ([] ++ [msg])%list)) ∧
    msg = ErrNotFound "octocat" "benz" "sub" 404.
Proof.
  destruct (proj2 (diagnostic_names_the_failure broken_subtree "octocat" "benz" "main"
                     "tok" "" (State {["a.txt" := "hello"]} ["sub"] []) "sub" []
                     broken_subtree_after_root eq_refl)
              (Response 404 "" None) eq_refl) as (n & msg & Hrun & H404 & _).
  { simpl. lia. }
  exists n, msg. split; [exact Hrun|]. by apply H404.
Defined.

(** X9 on the directory that lists itself. *)
Lemma cyclic_never_returns :
  get_github_code_files cyclic "octocat" "benz" "main" "tok" 1000 "/loop/" = None.
Proof.
  apply (endless_tree_never_returns cyclic "octocat" "benz" "main" "tok" (λ p, p = "loop"));
    [|done].
  intros p ->. exists [a_txt; loop_dir]. split; [done|]. split; [|split; [done|]].
  - intros it Hin Hty. in_list Hin; done.
  - intros q Hq. by apply list_elem_of_singleton in Hq.
Defined.

(** X10 on the small tree in two worlds that answer a call without the
    token with different statuses. *)
Lemma small_tree_in_either_world :
  get_github_code_files small_tree "octocat" "benz" "main" "tok" 2 "" =
  get_github_code_files small_tree_403 "octocat" "benz" "main" "tok" 2 "".
Proof.
  apply (every_call_passes_the_token small_tree small_tree_403).
  intros req Hauth. unfold small_tree_403.
  case_bool_decide as Hdec; [done|]. by destruct (Hdec Hauth).
Defined.

(** X11 on a listing that reports [a.txt] twice. *)
Lemma second_a_txt_wins :
  for_each [a_txt; a_txt_again] (process_item small_tree "tok") (State ∅ [] [])
    = (Val tt, State {["a.txt" := "world"]} [] []) ∧
  ({["a.txt" := "world"]} : gmap string string) !! "a.txt" = Some "world".
Proof.
  split; [reflexivity|].
  exact (later_entry_overwrites small_tree "tok" [a_txt] [] a_txt_again "world"
           (State ∅ [] []) (State {["a.txt" := "world"]} [] [])
           eq_refl eq_refl eq_refl
           (λ it' Hin, match proj1 (elem_of_nil it') Hin with end)).
Defined.
